(** * Streaming captions with asynchronous speaker attribution

    A shallow embedding of [streaming_caption_app.py]: the gain stage of the
    audio capture source ([amplify_audio]), the streaming transcription
    driver ([start_streaming], [stream_audio]) and the diarization
    reconciler ([run_diarization]).

    Python values are modelled as follows.  An [int] is a [Z]; a [float] is
    a kernel binary64 [float]; [bytes] is a [list byte]; a [str] whose
    characters the code looks at (transcripts, timeline words, captions) is
    the list of its code points, with the Unicode tables Python consults as
    a parameter; a [str] that is only passed along or built from literals
    (statuses, error messages, palette entries, environment values) is a
    [string]; a [set] of ids is a [gset Z]; the vote tally, a [dict] whose
    iteration order matters, is an association list in insertion order.  A
    raised exception is [None], or a constructor of its own where the code
    catches it.  Everything a thread
    sends to the outside world (socket events, console lines, diarization
    requests) is appended to a list of [effect]s, oldest first.  What a
    thread reads of the state it shares with the other one is an argument
    of its functions, so that the other thread may have written in
    between.  [Stream] and [Reconciler] give the run of one thread,
    [Session] the two threads of one session turn by turn, and [Threads]
    all the threads of the application step by step, those that outlive a
    restart included. *)

From Stdlib Require Import ZArith List Lia.
From Stdlib.Strings Require Import Ascii String Byte.
From Stdlib Require Import Floats Uint63.
From stdpp Require Import base option list gmap sets.

Open Scope Z_scope.

(** ** Audio capture source: gain *)

Module Audio.

(** [RATE], [CHUNK] and [GAIN] of the source. *)
Definition RATE : Z := 16000.
Definition CHUNK : Z := RATE / 10.
Definition GAIN : float := 3%float.

(** The gain argument is whatever number the caller passes: the default is
    the float [GAIN], an [int] is accepted just as well. *)
Inductive number :=
| PyInt (n : Z)
| PyFloat (x : float).

(** [struct.unpack('<h', ...)] on two bytes: little-endian, two's
    complement. *)
Definition unpack16 (lo hi : byte) : Z :=
  let u := Z.of_N (Byte.to_N lo) + 256 * Z.of_N (Byte.to_N hi) in
  if u <? 32768 then u else u - 65536.

(** [struct.unpack(f'<{len(audio_data)//2}h', audio_data)]: the buffer must
    hold exactly [2 * (len // 2)] bytes, so an odd length raises. *)
Fixpoint unpack (audio_data : list byte) : option (list Z) :=
  match audio_data with
  | [] => Some []
  | [_] => None
  | lo :: hi :: rest => cons (unpack16 lo hi) <$> unpack rest
  end.

(** [struct.pack('<h', n)]: raises when [n] is not a signed 16-bit value;
    it never reduces [n] modulo [2^16]. *)
Definition pack16 (n : Z) : option (list byte) :=
  if (-32768 <=? n) && (n <=? 32767) then
    let u := n mod 65536 in
    lo ← Byte.of_N (Z.to_N (u mod 256));
    hi ← Byte.of_N (Z.to_N (u / 256));
    Some [lo; hi]
  else None.

Fixpoint pack (samples : list Z) : option (list byte) :=
  match samples with
  | [] => Some []
  | n :: rest => b ← pack16 n; bs ← pack rest; Some (b ++ bs)
  end.

(** [float(n)] for an [int] operand of a mixed product. *)
Definition float_of_int (n : Z) : float :=
  if n <? 0 then (- PrimFloat.of_uint63 (Uint63.of_Z (- n)))%float
  else PrimFloat.of_uint63 (Uint63.of_Z n).

(** [int(x)] for a float: truncation toward zero; [int(nan)] raises
    [ValueError] and [int(inf)] raises [OverflowError]. *)
Definition int_of_float (x : float) : option Z :=
  match Prim2SF x with
  | S754_zero _ => Some 0
  | S754_finite s m e =>
      let mag := if 0 <=? e then Z.pos m * 2 ^ e else Z.pos m / 2 ^ (- e) in
      Some (if s then - mag else mag)
  | S754_infinity _ => None
  | S754_nan => None
  end.

(** [int(sample * gain)]. *)
Definition scale (sample : Z) (gain : number) : option Z :=
  match gain with
  | PyInt g => Some (sample * g)
  | PyFloat g => int_of_float (float_of_int sample * g)%float
  end.

(** [max(-32768, min(32767, new_sample))]. *)
Definition clip (new_sample : Z) : Z := Z.max (-32768) (Z.min 32767 new_sample).

(** The body of the [for sample in samples] loop. *)
Fixpoint amplify_samples (samples : list Z) (gain : number) : option (list Z) :=
  match samples with
  | [] => Some []
  | sample :: rest =>
      new_sample ← scale sample gain;
      amplified ← amplify_samples rest gain;
      Some (clip new_sample :: amplified)
  end.

Definition amplify_audio (audio_data : list byte) (gain : number) : option (list byte) :=
  samples ← unpack audio_data;
  amplified ← amplify_samples samples gain;
  pack amplified.

End Audio.

(** ** The [str] methods the two applications use *)

Module Str.

(** A character is its code point and a [str] is the list of its
    characters.  A string literal stands for the [str] that has one
    character per character of the literal, each below 256. *)
Abbreviation char := N (only parsing).
Abbreviation str := (list N) (only parsing).

Definition lit (s : string) : str := (λ c : ascii, N_of_ascii c) <$> list_ascii_of_string s.
Coercion lit : string >-> list.

(** What Python reads from the Unicode character database of the
    interpreter: [c.isalnum()] and [c.isspace()] of a character, and
    [s.lower()], which is not a map over the characters (one character may
    lower to two, and a sigma lowers by its position).  The database is no
    part of the repository: the functions below take it as a parameter, and
    the general statements hold whatever it is. *)
Class unicode := {
  isalnum : char → bool;
  isspace : char → bool;
  lower : str → str;
}.

Section methods.
Context `{!unicode}.

(** [''.join(c for c in s if c.isalnum())]. *)
Fixpoint alnum_only (s : str) : str :=
  match s with
  | [] => []
  | c :: rest => if isalnum c then c :: alnum_only rest else alnum_only rest
  end.

(** [s.split()] with the word being read in [word]: runs of whitespace
    separate, and no empty word is produced. *)
Fixpoint split_from (word : str) (s : str) : list str :=
  match s with
  | [] => match word with [] => [] | _ => [word] end
  | c :: rest =>
      if isspace c then
        match word with
        | [] => split_from [] rest
        | _ => word :: split_from [] rest
        end
      else split_from (word ++ [c]) rest
  end.

Definition split (s : str) : list str := split_from [] s.

End methods.

(** [s[:n]]. *)
Fixpoint slice_to (n : nat) (s : str) : str :=
  match n, s with
  | O, _ => []
  | S _, [] => []
  | S n', c :: rest => c :: slice_to n' rest
  end.

(** [s.startswith(prefix)]. *)
Fixpoint startswith (s prefix : str) : bool :=
  match prefix, s with
  | [], _ => true
  | _ :: _, [] => false
  | p :: prefix', c :: s' => if (c =? p)%N then startswith s' prefix' else false
  end.

(** The database on the characters below 256, as Python has it: the
    letters and digits of ASCII and of the Latin-1 supplement (with the
    superscript digits and the vulgar fractions, which [isalnum] accepts),
    the white space of both blocks, and the lowercase of the capital
    letters, 32 further in both blocks.  The examples are run with it and
    use no other character; above 255 it takes every character for a
    symbol without case, which is not Python's answer for all of them. *)
Definition between (lo hi c : N) : bool := ((lo <=? c) && (c <=? hi))%N.

Definition latin1_isalnum (c : char) : bool :=
  (between 48 57 c || between 65 90 c || between 97 122 c
   || between 170 170 c || between 178 179 c || between 181 181 c
   || between 185 186 c || between 188 190 c
   || between 192 214 c || between 216 246 c || between 248 255 c)%N.

Definition latin1_isspace (c : char) : bool :=
  (between 9 13 c || between 28 32 c || between 133 133 c || between 160 160 c)%N.

Definition latin1_lower (c : char) : char :=
  (if between 65 90 c || between 192 214 c || between 216 222 c then c + 32 else c)%N.

#[global] Instance latin1 : unicode :=
  {| isalnum := latin1_isalnum; isspace := latin1_isspace;
     lower := λ s, latin1_lower <$> s |}.

End Str.

(** ** What the tasks send out *)

Module Sink.
Import Str.

(** Socket events, by name and payload. *)
Inductive event :=
| Interim (text : str)
| Final (id : Z) (text : str)
| SpeakerUpdate (id : Z) (speaker : Z) (color name : string)
| Status (status : string)
| Error (message : string).

Arguments Interim text%_string.
Arguments Final id%_Z text%_string.

(** Console lines, one constructor per [print] of the two threads (the
    traceback that follows a diarization error is part of its line). *)
Inductive line :=
| FinalLine (caption_id : Z) (transcript : str)
| StreamingError (e : string)
| DiarizationStarted
| WaitingForAudio
| RunningDiarization (nbytes : Z)
| GotWords (n : Z)
| Assigned (name : string) (id : Z) (text40 : str)
| NoResults
| DiarizationError (e : string).

Arguments FinalLine caption_id%_Z transcript%_string.
Arguments Assigned name%_string id%_Z text40%_string.

Inductive effect :=
| Emit (e : event)
| Console (l : line)
| Recognize (audio_data : list byte).

(** The ids of the [final] events, and of the [speaker_update] events, of a
    log, in order of emission. *)
Definition final_id (x : effect) : option Z :=
  match x with Emit (Final id _) => Some id | _ => None end.

Definition speaker_update_id (x : effect) : option Z :=
  match x with Emit (SpeakerUpdate id _ _ _) => Some id | _ => None end.

Definition is_request (x : effect) : bool :=
  match x with Recognize _ => true | _ => false end.

Definition final_ids (log : list effect) : list Z := omap final_id log.
Definition speaker_update_ids (log : list effect) : list Z := omap speaker_update_id log.
Definition requests (log : list effect) : list effect := filter is_request log.

End Sink.

(** ** Shared session state *)

Module App.
Import Str.

(** An entry of [transcript_buffer]: the dict with keys id, text, time. *)
Record segment := { item_id : Z; item_text : str; item_time : float }.

Arguments Build_segment item_id%_Z item_text%_string item_time%_float.

(** The fields of [StreamingCaptionApp] that the two tasks share. *)
Record app := {
  is_running : bool;
  audio_buffer : list (list byte);
  transcript_buffer : list segment;
  caption_id : Z;
}.

Definition speaker_colors : list string :=
  ["#3498db"; "#e74c3c"; "#2ecc71"; "#f39c12"; "#9b59b6"]%string.
Definition speaker_names : list string :=
  ["Speaker 1"; "Speaker 2"; "Speaker 3"; "Speaker 4"; "Speaker 5"]%string.

(** A freshly constructed application ([__init__]). *)
Definition init : app :=
  {| is_running := false; audio_buffer := []; transcript_buffer := []; caption_id := 0 |}.

End App.

(** ** Streaming transcription driver *)

Module Stream.
Import Str Sink App.

(** [start_streaming]: does nothing when a session is running; otherwise
    resets the ledgers and the id counter.  The two threads it starts are
    [stream_audio] and [Reconciler.run_diarization] below. *)
Definition start_streaming (self : app) : app * list effect :=
  if negb (is_running self) then
    ({| is_running := true; audio_buffer := []; transcript_buffer := []; caption_id := 0 |},
     [Emit (Status "Listening...")])
  else (self, []).

Definition stop_streaming (self : app) : app * list effect :=
  ({| is_running := false; audio_buffer := audio_buffer self;
      transcript_buffer := transcript_buffer self; caption_id := caption_id self |},
   [Emit (Status "Stopped")]).

(** A streaming response: [results], each with the transcripts of its
    [alternatives] and its [is_final] flag. *)
Record recognition_result := { alternatives : list str; is_final : bool }.
Definition response := list recognition_result.

(** What one streaming thread meets, in order, from the start that created
    it until it returns or the client starts again.  A start that finds the
    thread still alive sets [is_running] again and resets the ledgers under
    it: that case is in [Threads] below. *)
Inductive channel_item :=
| Audio (content : list byte)          (* the request generator takes one chunk from the microphone *)
| Response (now : float) (r : response) (* the channel yields [r]; [time.time()] would read [now] *)
| Stop                                  (* the controlling task clears [is_running] *)
| Failure (e : string).                 (* the client, the microphone or the channel raises [e] *)

(** [audio_with_buffer]: [self.audio_buffer.append(content)]. *)
Definition buffer_audio (self : app) (content : list byte) : app :=
  {| is_running := is_running self; audio_buffer := audio_buffer self ++ [content];
     transcript_buffer := transcript_buffer self; caption_id := caption_id self |}.

Definition clear_running (self : app) : app :=
  {| is_running := false; audio_buffer := audio_buffer self;
     transcript_buffer := transcript_buffer self; caption_id := caption_id self |}.

(** A final result, first half: take the id, advance the counter and append
    to the transcript ledger. *)
Definition final_append (self : app) (transcript : str) (now : float) : app * Z :=
  let id := caption_id self in
  ({| is_running := is_running self; audio_buffer := audio_buffer self;
      transcript_buffer := transcript_buffer self
        ++ [{| item_id := id; item_text := transcript; item_time := now |}];
      caption_id := id + 1 |}, id).

Arguments final_append self transcript%_string now%_float.

(** A final result, second half: the [final] event and its console line. *)
Definition final_emit (id : Z) (transcript : str) : list effect :=
  [Emit (Final id transcript); Console (FinalLine id transcript)].

Arguments final_emit id%_Z transcript%_string.

(** The body of [for response in responses], after the [is_running] test. *)
Definition handle_response (self : app) (now : float) (r : response) : app * list effect :=
  match r with
  | [] => (self, [])
  | result :: _ =>
      match alternatives result with
      | [] => (self, [])
      | transcript :: _ =>
          if is_final result then
            let '(self', id) := final_append self transcript now in
            (self', final_emit id transcript)
          else (self, [Emit (Interim transcript)])
      end
  end.

(** How the [try] block of [stream_audio] ends. *)
Inductive ending :=
| Exhausted            (* the channel has nothing more *)
| Broken               (* [break]: [is_running] was found cleared *)
| Raised (e : string).

Fixpoint stream_loop (self : app) (items : list channel_item) : app * list effect * ending :=
  match items with
  | [] => (self, [], Exhausted)
  | Audio content :: rest => stream_loop (buffer_audio self content) rest
  | Stop :: rest => stream_loop (clear_running self) rest
  | Failure e :: _ => (self, [], Raised e)
  | Response now r :: rest =>
      if negb (is_running self) then (self, [], Broken)
      else
        let '(self1, log1) := handle_response self now r in
        let '(self2, log2, how) := stream_loop self1 rest in
        (self2, log1 ++ log2, how)
  end.

(** The [except] clause. *)
Definition on_exception (how : ending) : list effect :=
  match how with
  | Raised e =>
      [Console (StreamingError e); Emit (Error e); Emit (Status ("Error: " ++ e))]
  | _ => []
  end.

Definition stream_audio (self : app) (items : list channel_item) : app * list effect :=
  let '(self', log, how) := stream_loop self items in
  (clear_running self', log ++ on_exception how ++ [Emit (Status "Stopped")]).

End Stream.

(** ** Diarization reconciler *)

Module Reconciler.
Import Str Sink App.

(** A word of the diarization response; [speaker_tag] may be absent. *)
Record word_info := { word : str; speaker_tag : option Z }.

Arguments Build_word_info word%_string speaker_tag.

(** A diarization response: [results], each a list of [alternatives], each
    given by its [words]. *)
Definition response := list (list (list word_info)).

(** What the one-shot request does: [client.recognize] returns a response
    or raises. *)
Inductive outcome :=
| Returned (r : response)
| Failed (e : string).

Section with_unicode.
Context `{!unicode}.

(** [word_list]: the lowercased word with its speaker,
    [getattr(word_info, 'speaker_tag', 1)]. *)
Definition build_word_list (words : list word_info) : list (str * Z) :=
  (λ word_info, (lower (word word_info), default 1 (speaker_tag word_info))) <$> words.

(** [speaker_votes]: a dict, kept as its entries in insertion order. *)
Definition tally := list (Z * Z).

(** [speaker_votes.get(s, d)]. *)
Fixpoint get (speaker_votes : tally) (s : Z) (d : Z) : Z :=
  match speaker_votes with
  | [] => d
  | (k, v) :: rest => if decide (k = s) then v else get rest s d
  end.

(** [speaker_votes[s] = v]: an existing key keeps its place, a new key goes
    last. *)
Fixpoint set_item (speaker_votes : tally) (s v : Z) : tally :=
  match speaker_votes with
  | [] => [(s, v)]
  | (k, v0) :: rest =>
      if decide (k = s) then (k, v) :: rest else (k, v0) :: set_item rest s v
  end.

(** [range(lo, hi)]. *)
Definition range (lo hi : Z) : list Z :=
  (λ i : nat, lo + Z.of_nat i) <$> seq 0 (Z.to_nat (hi - lo)).

(** The [for wi in ...] loop with its [break]: the first index of [indices]
    whose word starts with [prefix], and that word's speaker. *)
Fixpoint first_hit (word_list : list (str * Z)) (prefix : str) (indices : list Z)
  : option (Z * Z) :=
  match indices with
  | [] => None
  | wi :: rest =>
      match word_list !! Z.to_nat wi with
      | Some (w, s) => if startswith w prefix then Some (wi, s) else first_hit word_list prefix rest
      | None => None
      end
  end.

Definition window (word_list : list (str * Z)) (word_idx : Z) : list Z :=
  range (Z.max 0 (word_idx - 5)) (Z.min (Z.of_nat (length word_list)) (word_idx + 20)).

Definition find_match (word_list : list (str * Z)) (word_idx : Z) (clean_iw : str)
  : option (Z * Z) :=
  first_hit word_list (slice_to 3 clean_iw) (window word_list word_idx).

(** One turn of [for iw in item_words], on the pair of the tally and the
    cursor. *)
Definition match_word (word_list : list (str * Z)) (st : tally * Z) (iw : str)
  : tally * Z :=
  let '(speaker_votes, word_idx) := st in
  let clean_iw := alnum_only iw in
  match clean_iw with
  | [] => st
  | _ =>
      match find_match word_list word_idx clean_iw with
      | Some (wi, s) => (set_item speaker_votes s (get speaker_votes s 0 + 1), wi + 1)
      | None => st
      end
  end.

(** The votes of one segment, and the cursor after it. *)
Definition match_item (word_list : list (str * Z)) (word_idx : Z) (text : str)
  : tally * Z :=
  foldl (match_word word_list) ([], word_idx) (split (lower text)).

(** [max(keys, key=...)] after its first element: a later key replaces the
    best one only when its value is strictly greater. *)
Fixpoint max_from (key : Z → Z) (best : Z) (keys : list Z) : Z :=
  match keys with
  | [] => best
  | k :: rest => max_from key (if key best <? key k then k else best) rest
  end.

(** [max(speaker_votes, key=speaker_votes.get)], guarded by
    [if speaker_votes]. *)
Definition most_common (speaker_votes : tally) : option Z :=
  match speaker_votes.*1 with
  | [] => None
  | k :: rest => Some (max_from (λ s, get speaker_votes s 0) k rest)
  end.

(** [palette[(speaker - 1) % len(palette)]]. *)
Definition pick (palette : list string) (speaker : Z) : string :=
  nth (Z.to_nat ((speaker - 1) mod Z.of_nat (length palette))) palette EmptyString.

(** The effects of resolving [item] to [speaker]. *)
Definition announce (item : segment) (speaker : Z) : list effect :=
  let color := pick speaker_colors speaker in
  let name := pick speaker_names speaker in
  [Emit (SpeakerUpdate (item_id item) speaker color name);
   Console (Assigned name (item_id item) (slice_to 40 (item_text item)))].

(** [for item in self.transcript_buffer]: the cursor and the processed set
    run through the whole ledger. *)
Fixpoint scan (word_list : list (str * Z)) (items : list segment) (word_idx : Z)
  (processed_captions : gset Z) : list effect * gset Z :=
  match items with
  | [] => ([], processed_captions)
  | item :: rest =>
      if decide (item_id item ∈ processed_captions) then
        scan word_list rest word_idx processed_captions
      else
        let '(speaker_votes, word_idx') := match_item word_list word_idx (item_text item) in
        match most_common speaker_votes with
        | Some speaker =>
            let '(log, processed) :=
              scan word_list rest word_idx' ({[item_id item]} ∪ processed_captions) in
            (announce item speaker ++ log, processed)
        | None => scan word_list rest word_idx' processed_captions
        end
  end.

(** The [try] block: the request, then the alignment over the ledger as it
    reads once the response is in. *)
Definition diarize (processed_captions : gset Z) (audio_data : list byte)
  (recognize : outcome) (transcript_buffer : list segment) : list effect * gset Z :=
  let '(log, processed) :=
    match recognize with
    | Failed e => ([Console (DiarizationError e)], processed_captions)
    | Returned r =>
        match last r with
        | None => ([Console NoResults], processed_captions)
        | Some result =>
            match result with
            | [] => ([], processed_captions)
            | words :: _ =>
                let '(log, processed) :=
                  scan (build_word_list words) transcript_buffer 0 processed_captions in
                (Console (GotWords (Z.of_nat (length words))) :: log, processed)
            end
        end
    end in
  (Console (RunningDiarization (Z.of_nat (length audio_data))) :: Recognize audio_data :: log,
   processed).

(** What one tick reads of the shared state, and what the service answers. *)
Record tick_env := {
  running : bool;                     (* [self.is_running] at the [while] test *)
  ledger_at_check : list segment;     (* [self.transcript_buffer] in the unprocessed test *)
  frames : list (list byte);          (* [self.audio_buffer] *)
  recognize : outcome;                (* the request, if it is made *)
  ledger_at_scan : list segment;      (* [self.transcript_buffer] in the alignment loop *)
}.

Definition unprocessed (transcript_buffer : list segment) (processed_captions : gset Z)
  : list segment :=
  filter (λ t, item_id t ∉ processed_captions) transcript_buffer.

(** The body of the [while] loop, after the sleep. *)
Definition tick (processed_captions : gset Z) (env : tick_env) : list effect * gset Z :=
  match unprocessed (ledger_at_check env) processed_captions with
  | [] => ([], processed_captions)
  | _ :: _ =>
      let audio_data := concat (frames env) in
      if Z.of_nat (length audio_data) <? Audio.RATE * 2 * 10 then
        ([Console WaitingForAudio], processed_captions)
      else diarize processed_captions audio_data (recognize env) (ledger_at_scan env)
  end.

(** The [while self.is_running] loop over the ticks the session lives
    through. *)
Fixpoint ticks (processed_captions : gset Z) (envs : list tick_env) : list effect * gset Z :=
  match envs with
  | [] => ([], processed_captions)
  | env :: rest =>
      if running env then
        let '(log1, processed1) := tick processed_captions env in
        let '(log2, processed2) := ticks processed1 rest in
        (log1 ++ log2, processed2)
      else ([], processed_captions)
  end.

Definition run_diarization (envs : list tick_env) : list effect * gset Z :=
  let '(log, processed) := ticks ∅ envs in
  (Console DiarizationStarted :: log, processed).

(** A tick that reads the shared state [self] in one go. *)
Definition env_of (self : app) (recognize : outcome) : tick_env :=
  {| running := is_running self; ledger_at_check := transcript_buffer self;
     frames := audio_buffer self; recognize := recognize;
     ledger_at_scan := transcript_buffer self |}.

End with_unicode.

End Reconciler.

(** ** One session: the two tasks side by side *)

Module Session.
Import Str Sink App Stream Reconciler.

(** The shared state, the reconciler's processed set, and everything sent
    out so far by either task. *)
Record session := {
  self : app;
  processed_captions : gset Z;
  log : list effect;
}.

(** A turn of one of the two loops, run from start to end. *)
Inductive turn :=
| Channel (item : channel_item)   (* the streaming task deals with [item] *)
| Tick (recognize : outcome).     (* the reconciler runs one tick on the state as it is *)

Section with_unicode.
Context `{!unicode}.

Definition channel_turn (s : session) (item : channel_item) : session :=
  let '(self', log', _) := stream_loop (self s) [item] in
  {| self := self'; processed_captions := processed_captions s; log := log s ++ log' |}.

Definition tick_turn (s : session) (recognize : outcome) : session :=
  if is_running (self s) then
    let '(log', processed') := tick (processed_captions s) (env_of (self s) recognize) in
    {| self := self s; processed_captions := processed'; log := log s ++ log' |}
  else s.

Definition take_turn (s : session) (t : turn) : session :=
  match t with
  | Channel item => channel_turn s item
  | Tick recognize => tick_turn s recognize
  end.

(** The session right after [start_streaming] on a fresh application. *)
Definition started : session :=
  {| self := (start_streaming init).1; processed_captions := ∅;
     log := (start_streaming init).2 ++ [Console DiarizationStarted] |}.

Definition run (turns : list turn) : session := foldl take_turn started turns.

End with_unicode.


(** The socket events of a log. *)
Definition events (log : list effect) : list event :=
  omap (λ x, match x with Emit e => Some e | _ => None end) log.

End Session.

(** ** The application and all the threads it has started *)

Module Threads.
Import Str Sink App Stream Reconciler.

(** [start_streaming] starts a [stream_audio] thread and a
    [run_diarization] thread.  It first joins the threads of the session
    before, for two seconds and for one second at most, and [stop_streaming]
    joins the streaming thread for two seconds at most: a streaming thread
    that waits for a response of a silent channel, or a reconciler in its
    ten seconds of sleep, is still alive when the wait is over, and goes on
    with the shared state as the new session has reset it.  Here the
    threads run side by side on the shared state, one step at a time. *)

(** A [stream_audio] thread: waiting for the next response; between the
    append and the emit of a final result; returned. *)
Inductive streamer :=
| Receiving
| Emitting (caption_id : Z) (transcript : str)
| StreamDone.

(** A [run_diarization] thread with its local [processed_captions]: at the
    test of its [while]; asleep; returned. *)
Inductive looper :=
| Testing (processed_captions : gset Z)
| Sleeping (processed_captions : gset Z)
| LoopDone.

Record world := {
  shared : app;                (* the fields of the application *)
  streams : list streamer;     (* the streaming threads, in order of creation *)
  loops : list looper;         (* the reconciler threads, in order of creation *)
  out : list effect;           (* everything sent out so far, by any thread *)
}.

(** What happens next, thread number [k] counting from 0. *)
Inductive step :=
| ClientStart                                          (* the client sends [start] *)
| ClientStop                                           (* the client sends [stop] *)
| Chunk (k : nat) (content : list byte)                (* [audio_with_buffer] of stream [k] takes a chunk *)
| Receive (k : nat) (now : float) (r : Stream.response) (* the channel of stream [k] yields [r] *)
| Deliver (k : nat)                                    (* stream [k] emits the final result it appended *)
| Raise (k : nat) (e : string)                         (* the channel of stream [k] raises [e] *)
| EndOfStream (k : nat)                                (* the channel of stream [k] has nothing more *)
| LoopTest (k : nat)                                   (* reconciler [k] tests [self.is_running] *)
| Wake (k : nat) (recognize : outcome).                (* reconciler [k] wakes and runs one tick *)

(** A freshly constructed application: no thread yet. *)
Definition boot : world := {| shared := init; streams := []; loops := []; out := [] |}.

(** [start_streaming], with the two threads it starts; the reconciler
    prints its first line and makes its empty set as it starts. *)
Definition client_start (w : world) : world :=
  if negb (is_running (shared w)) then
    {| shared := (start_streaming (shared w)).1;
       streams := streams w ++ [Receiving];
       loops := loops w ++ [Testing ∅];
       out := out w ++ (start_streaming (shared w)).2 ++ [Console DiarizationStarted] |}
  else w.

Definition client_stop (w : world) : world :=
  {| shared := (stop_streaming (shared w)).1; streams := streams w; loops := loops w;
     out := out w ++ (stop_streaming (shared w)).2 |}.

(** Stream [k] leaves its [try] block: the [except] clause if it raised,
    then [self.is_running = False] and the last status. *)
Definition leave (w : world) (k : nat) (how : ending) : world :=
  {| shared := clear_running (shared w);
     streams := <[k := StreamDone]> (streams w);
     loops := loops w;
     out := out w ++ on_exception how ++ [Emit (Status "Stopped")] |}.

(** Stream [k] gets a response: the [is_running] test, then the body of the
    loop up to the append of a final result. *)
Definition receive (w : world) (k : nat) (now : float) (r : Stream.response) : world :=
  if negb (is_running (shared w)) then leave w k Broken
  else
    match r with
    | [] => w
    | result :: _ =>
        match alternatives result with
        | [] => w
        | transcript :: _ =>
            if is_final result then
              let '(self', id) := final_append (shared w) transcript now in
              {| shared := self'; streams := <[k := Emitting id transcript]> (streams w);
                 loops := loops w; out := out w |}
            else
              {| shared := shared w; streams := streams w; loops := loops w;
                 out := out w ++ [Emit (Interim transcript)] |}
        end
    end.

Section with_unicode.
Context `{!unicode}.

Definition take_step (w : world) (s : step) : world :=
  match s with
  | ClientStart => client_start w
  | ClientStop => client_stop w
  | Chunk k content =>
      match streams w !! k with
      | Some Receiving | Some (Emitting _ _) =>
          {| shared := buffer_audio (shared w) content; streams := streams w;
             loops := loops w; out := out w |}
      | _ => w
      end
  | Receive k now r =>
      match streams w !! k with
      | Some Receiving => receive w k now r
      | _ => w
      end
  | Deliver k =>
      match streams w !! k with
      | Some (Emitting id transcript) =>
          {| shared := shared w; streams := <[k := Receiving]> (streams w);
             loops := loops w; out := out w ++ final_emit id transcript |}
      | _ => w
      end
  | Raise k e =>
      match streams w !! k with
      | Some Receiving => leave w k (Raised e)
      | _ => w
      end
  | EndOfStream k =>
      match streams w !! k with
      | Some Receiving => leave w k Exhausted
      | _ => w
      end
  | LoopTest k =>
      match loops w !! k with
      | Some (Testing processed_captions) =>
          {| shared := shared w; streams := streams w;
             loops := <[k := if is_running (shared w) then Sleeping processed_captions
                             else LoopDone]> (loops w);
             out := out w |}
      | _ => w
      end
  | Wake k recognize =>
      match loops w !! k with
      | Some (Sleeping processed_captions) =>
          let '(log, processed) := tick processed_captions (env_of (shared w) recognize) in
          {| shared := shared w; streams := streams w;
             loops := <[k := Testing processed]> (loops w);
             out := out w ++ log |}
      | _ => w
      end
  end.

Definition run (steps : list step) : world := foldl take_step boot steps.

End with_unicode.

(** Whether a reconciler thread is still running, and whether a streaming
    thread is. *)
Definition loop_alive (t : looper) : bool :=
  match t with LoopDone => false | _ => true end.

Definition stream_alive (t : streamer) : bool :=
  match t with StreamDone => false | _ => true end.



End Threads.

(** ** Vocabulary of the statements *)

Module Props.
Import Str Sink App Stream Reconciler Session.

(** The range of a signed 16-bit sample. *)
Definition int16 (n : Z) : Prop := -32768 ≤ n ≤ 32767.

(** A finite float with sign [s], mantissa [m] and exponent [e] has the
    absolute value [m * 2 ^ e]; with both sides scaled to integers, the
    float [x] is exactly the integer [n]. *)
Definition exactly (x : float) (n : Z) : Prop :=
  match Prim2SF x with
  | S754_zero _ => n = 0
  | S754_finite s m e =>
      (if s then - n else n) * 2 ^ Z.max 0 (- e) = Z.pos m * 2 ^ Z.max 0 e
  | S754_infinity _ => False
  | S754_nan => False
  end.

(** [v] is the float [x] truncated to an integer: [x] is finite, [v] has its
    sign, and the absolute value [mag] of [v] is the integer with
    [mag <= |x| < mag + 1]. *)
Definition truncates (x : float) (v : Z) : Prop :=
  match Prim2SF x with
  | S754_zero _ => v = 0
  | S754_finite s m e =>
      ∃ mag, v = (if s then - mag else mag)
        ∧ mag * 2 ^ Z.max 0 (- e) ≤ Z.pos m * 2 ^ Z.max 0 e
          < (mag + 1) * 2 ^ Z.max 0 (- e)
  | S754_infinity _ => False
  | S754_nan => False
  end.

(** [v] is the input sample times the gain, truncated to an integer: the
    product of integers for an [int] gain, and for a [float] gain the
    binary64 product of the gain with the float that is the sample,
    truncated. *)
Definition scaled (sample : Z) (gain : Audio.number) (v : Z) : Prop :=
  match gain with
  | Audio.PyInt g => v = sample * g
  | Audio.PyFloat g => ∃ x, exactly x sample ∧ truncates (x * g)%float v
  end.

(** The boolean form of [exactly], and a test run over [n] consecutive
    integers from [lo]. *)
Definition exactlyb (x : float) (n : Z) : bool :=
  match Prim2SF x with
  | S754_zero _ => n =? 0
  | S754_finite s m e =>
      (if s then - n else n) * 2 ^ Z.max 0 (- e) =? Z.pos m * 2 ^ Z.max 0 e
  | S754_infinity _ => false
  | S754_nan => false
  end.

Fixpoint all_from (f : Z → bool) (lo : Z) (n : nat) : bool :=
  match n with
  | O => true
  | S n' => f lo && all_from f (lo + 1) n'
  end.

(** The indices the search visits from cursor [word_idx]: five behind to
    twenty ahead, inside the timeline. *)
Definition in_window (word_list : list (str * Z)) (word_idx wi : Z) : Prop :=
  Z.max 0 (word_idx - 5) ≤ wi < Z.min (Z.of_nat (length word_list)) (word_idx + 20).

(** The timeline word at [wi] starts with the first three characters of the
    token (with the whole token when it has fewer than three). *)
Definition is_hit (word_list : list (str * Z)) (clean_iw : str) (wi : Z) : Prop :=
  ∃ w s, word_list !! Z.to_nat wi = Some (w, s) ∧ take 3 clean_iw `prefix_of` w.

Section with_unicode.
Context `{!unicode}.

(** The words of a text: its maximal runs of characters that are not white
    space, in order. *)
Inductive words_of : str → list str → Prop :=
| words_end : words_of [] []
| words_space c s toks :
    isspace c = true → words_of s toks → words_of (c :: s) toks
| words_word tok s toks :
    tok ≠ [] →
    Forall (λ c, isspace c = false) tok →
    (s = [] ∨ ∃ c s', s = c :: s' ∧ isspace c = true) →
    words_of s toks →
    words_of (tok ++ s) (tok :: toks).

(** The token [iw], cleaned of the characters that are not alphanumeric, is
    not empty, and searching from cursor [word_idx] its first hit is the
    timeline word at [wi]. *)
Definition first_match (word_list : list (str * Z)) (word_idx : Z) (iw : str) (wi : Z)
  : Prop :=
  List.filter isalnum iw ≠ []
  ∧ in_window word_list word_idx wi
  ∧ is_hit word_list (List.filter isalnum iw) wi
  ∧ ∀ j, in_window word_list word_idx j → j < wi →
         ¬ is_hit word_list (List.filter isalnum iw) j.

(** What one token does to the tally and the cursor: nothing when its
    cleaned form is empty, nothing when the window holds no hit, and
    otherwise one more vote for the speaker of the first hit, with the
    cursor just past it. *)
Inductive token_step (word_list : list (str * Z)) : tally * Z → str → tally * Z → Prop :=
| token_skipped st iw :
    List.filter isalnum iw = [] →
    token_step word_list st iw st
| token_missed speaker_votes word_idx iw :
    List.filter isalnum iw ≠ [] →
    (∀ j, in_window word_list word_idx j → ¬ is_hit word_list (List.filter isalnum iw) j) →
    token_step word_list (speaker_votes, word_idx) iw (speaker_votes, word_idx)
| token_voted speaker_votes word_idx iw wi w s :
    first_match word_list word_idx iw wi →
    word_list !! Z.to_nat wi = Some (w, s) →
    token_step word_list (speaker_votes, word_idx) iw
      (set_item speaker_votes s (get speaker_votes s 0 + 1), wi + 1).

(** The tokens of a segment, one after the other. *)
Inductive segment_steps (word_list : list (str * Z)) : tally * Z → list str → tally * Z → Prop :=
| steps_done st : segment_steps word_list st [] st
| steps_token st iw st' rest st'' :
    token_step word_list st iw st' →
    segment_steps word_list st' rest st'' →
    segment_steps word_list st (iw :: rest) st''.

End with_unicode.

(** What a stretch of the reconciler's run guarantees, from the processed
    set [P] it starts with: the ids it announces are distinct, none of them
    was in [P], all of them are in the processed set it ends with, and that
    set contains [P]. *)
Definition announces_fresh (P : gset Z) (r : list effect * gset Z) : Prop :=
  NoDup (speaker_update_ids (fst r))
  ∧ (∀ id, id ∈ speaker_update_ids (fst r) → (id ∉ P) ∧ id ∈ snd r)
  ∧ P ⊆ snd r.

(** The ids [first], [first + 1], ..., [first + n - 1]. *)
Definition consecutive (first : Z) (n : nat) : list Z :=
  (λ i : nat, first + Z.of_nat i) <$> seq 0 n.


End Props.

(** ** Concrete sessions *)

Module Scenarios.
Import Str Sink App Stream Reconciler Session.

(** Ten seconds of silence: 320000 bytes. *)
Definition ten_seconds : list byte := repeat x00 (Z.to_nat 320000).

Definition hello_world : segment :=
  {| item_id := 0; item_text := "hello world"; item_time := 0%float |}.

Definition hello_world_words : list word_info :=
  [{| word := "hello"; speaker_tag := Some 1 |}; {| word := "world"; speaker_tag := Some 1 |}].



(** A timeline whose first word is said again later in the segment. *)
Definition timeline : list (str * Z) :=
  [(lit "hello", 1); (lit "world", 1); (lit "foo", 2)].

(** A failed tick followed by a good one. *)
Definition failing_tick : tick_env :=
  {| running := true; ledger_at_check := [hello_world]; frames := [ten_seconds];
     recognize := Failed "503 Service Unavailable"; ledger_at_scan := [hello_world] |}.

Definition good_tick : tick_env :=
  {| running := true; ledger_at_check := [hello_world]; frames := [ten_seconds];
     recognize := Returned [[hello_world_words]]; ledger_at_scan := [hello_world] |}.

(** Two final results among interim and empty responses. *)
Definition two_finals : list channel_item :=
  [Audio [x01; x00];
   Response 1%float [{| alternatives := [lit "hi"]; is_final := false |}];
   Response 2%float [{| alternatives := [lit "hi there"; lit "high there"]; is_final := true |}];
   Response 3%float [];
   Response 4%float [{| alternatives := []; is_final := true |}];
   Response 5%float [{| alternatives := [lit "how are you"]; is_final := true |}]].


(** A session stopped and started again within the reconciler's ten
    seconds of sleep.  The first reconciler has tested the flag and sleeps;
    the client stops; the first streaming thread gets a response, finds the
    flag cleared and returns; the client starts again: the second
    reconciler and streaming thread start, the first reconciler is still
    asleep.  It wakes up in the new session, finds nothing to process and
    the flag set, and sleeps again.  The new session transcribes "hello
    world" as segment 0 and buffers ten seconds of audio; then the second
    reconciler wakes up and gets the diarization of the buffered audio, and
    so does the first one. *)
Definition restarted_session : list Threads.step :=
  [Threads.ClientStart;
   Threads.LoopTest 0;
   Threads.ClientStop;
   Threads.Receive 0 1%float [{| alternatives := [lit "hel"]; is_final := false |}];
   Threads.ClientStart;
   Threads.LoopTest 1;
   Threads.Wake 0 (Returned []);
   Threads.LoopTest 0;
   Threads.Receive 1 2%float [{| alternatives := [lit "hello world"]; is_final := true |}];
   Threads.Deliver 1;
   Threads.Chunk 1 ten_seconds;
   Threads.Wake 1 (Returned [[hello_world_words]]);
   Threads.Wake 0 (Returned [[hello_world_words]])].

(** A session stopped and started again while the channel is silent.  The
    first streaming thread waits for a response when the client stops and
    starts again, so it never sees the flag cleared; the second streaming
    thread starts beside it.  Then the same phrase comes back final on both
    channels: the first thread appends it, the second thread appends it and
    emits it, and the first thread emits it. *)
Definition crossed_finals : list Threads.step :=
  [Threads.ClientStart;
   Threads.ClientStop;
   Threads.ClientStart;
   Threads.Receive 0 1%float [{| alternatives := [lit "hello"]; is_final := true |}];
   Threads.Receive 1 2%float [{| alternatives := [lit "hello"]; is_final := true |}];
   Threads.Deliver 1;
   Threads.Deliver 0].

End Scenarios.

(** ** Audio capture source: the queue between callback and consumer *)

Module Microphone.
Import Audio.

(** [self._buff]: what was put and not yet taken, oldest first; the
    sentinel [None] is put by [__exit__]. *)
Definition queue := list (option (list byte)).

(** [_fill_buffer]: the device callback amplifies the frame and puts it; when
    the amplification raises, nothing is put. *)
Definition _fill_buffer (buff : queue) (in_data : list byte) (gain : number) : option queue :=
  amplified ← amplify_audio in_data gain;
  Some (buff ++ [Some amplified]).

(** [__exit__], as far as the queue goes: [self._buff.put(None)]. *)
Definition exit (buff : queue) : queue := buff ++ [None].

(** One turn of the outer loop of [generator], as the consumer lives it:
    whether [self.closed] reads true at the loop test, the item the blocking
    [get] returns, and the items the non-blocking [get]s return before one
    of them finds the queue empty. *)
Record turn := {
  closed : bool;
  first : option (list byte);
  more : queue;
}.

(** The inner [while True] loop: [None] when the sentinel is met (the
    generator returns), the chunks collected when the queue runs empty. *)
Fixpoint drain (data : list (list byte)) (more : queue) : option (list (list byte)) :=
  match more with
  | [] => Some data
  | None :: _ => None
  | Some chunk :: rest => drain (data ++ [chunk]) rest
  end.

(** [generator]: the buffers it yields, in order. *)
Fixpoint generator (turns : list turn) : list (list byte) :=
  match turns with
  | [] => []
  | t :: rest =>
      if closed t then []
      else
        match first t with
        | None => []
        | Some chunk =>
            match drain [chunk] (more t) with
            | None => []
            | Some data => concat data :: generator rest
            end
        end
  end.

(** The chunks a turn takes off the queue. *)
Definition chunks_of (t : turn) : list (list byte) := omap id (first t :: more t).

(** A turn that yields: the stream is not closed and no item is the
    sentinel. *)
Definition yields (t : turn) : bool :=
  negb (closed t) && forallb (λ item, match item with Some _ => true | None => false end)
                             (first t :: more t).

End Microphone.

(** ** Credentials from the environment *)

Module Credentials.

(** [os.environ], and [os.getenv] on it. *)
Definition environ := gmap string string.
Definition getenv (env : environ) (name : string) : option string := env !! name.

(** The truth value of what [os.getenv] returns: [None] and the empty
    string are false. *)
Definition truthy (v : option string) : bool :=
  match v with
  | Some (String _ _) => true
  | _ => false
  end.

Definition backslash : ascii := ascii_of_nat 92.
Definition newline : ascii := ascii_of_nat 10.

(** [private_key.replace('\\n', '\n')]: every backslash followed by the
    letter n becomes one newline character, from left to right. *)
Fixpoint replace_escaped_newlines (s : string) : string :=
  match s with
  | EmptyString => EmptyString
  | String c rest =>
      match rest with
      | String d rest' =>
          if Ascii.eqb c backslash && Ascii.eqb d "n"%char
          then String newline (replace_escaped_newlines rest')
          else String c (replace_escaped_newlines rest)
      | EmptyString => String c EmptyString
      end
  end.

(** The dict written to the credentials file. *)
Record service_account := {
  type_ : string;
  project_id : string;
  private_key : string;
  client_email : string;
  token_uri : string;
}.

(** [setup_google_credentials]: the environment afterwards, the credentials
    written to the temporary file [temp_name] if any, and the value
    returned. *)
Definition setup_google_credentials (env : environ) (temp_name : string)
  : environ * option service_account * bool :=
  let project_id := getenv env "GOOGLE_PROJECT_ID" in
  let private_key := getenv env "GOOGLE_PRIVATE_KEY" in
  let client_email := getenv env "GOOGLE_CLIENT_EMAIL" in
  if truthy project_id && truthy private_key && truthy client_email then
    let creds :=
      {| type_ := "service_account";
         project_id := default EmptyString project_id;
         private_key := replace_escaped_newlines (default EmptyString private_key);
         client_email := default EmptyString client_email;
         token_uri := "https://oauth2.googleapis.com/token" |} in
    (<["GOOGLE_APPLICATION_CREDENTIALS"%string := temp_name]> env, Some creds, true)
  else (env, None, false).

(** Whether a backslash is directly followed by the letter n somewhere in
    [s]. *)
Fixpoint has_escaped_newline (s : string) : bool :=
  match s with
  | EmptyString => false
  | String c rest =>
      match rest with
      | String d _ =>
          (Ascii.eqb c backslash && Ascii.eqb d "n"%char) || has_escaped_newline rest
      | EmptyString => false
      end
  end.

End Credentials.

(** ** The first caption application: recognition with optional correction *)

Module Caption.
Import Str.

Section with_unicode.
Context `{!unicode}.

(** [s.lstrip()], [s.rstrip()] and [s.strip()]. *)
Fixpoint lstrip (s : str) : str :=
  match s with
  | [] => []
  | c :: rest => if isspace c then lstrip rest else s
  end.

Fixpoint rstrip (s : str) : str :=
  match s with
  | [] => []
  | c :: rest =>
      match rstrip rest with
      | [] => if isspace c then [] else [c]
      | kept => c :: kept
      end
  end.

Definition strip (s : str) : str := rstrip (lstrip s).

(** What the correction request does: the text of the first content block
    of the answer, or an exception (a failed call, an answer without
    content). *)
Inductive reply :=
| Answer (text : str)
| ApiError (e : str).

(** [enhance_with_claude]: the stripped answer, and the text itself when
    anything raises. *)
Definition enhance_with_claude (text : str) (r : reply) : str :=
  match r with
  | Answer corrected => strip corrected
  | ApiError _ => text
  end.

(** What one turn of [process_audio] hears. *)
Inductive heard :=
| WaitTimeout                             (* [listen] times out *)
| Unintelligible                          (* [sr.UnknownValueError] *)
| RequestError (e : str)                  (* [sr.RequestError] *)
| OtherError (e : str)                    (* any other exception *)
| Recognized (text : str) (r : reply).    (* [recognize_google] returns [text] *)

(** The text a turn puts on [text_queue], if any; [enhance] is
    [self.use_claude and self.claude_client]. *)
Definition process_turn (enhance : bool) (h : heard) : option str :=
  match h with
  | WaitTimeout => None
  | Unintelligible => None
  | RequestError e => Some (lit "API Error: " ++ e)
  | OtherError e => Some (lit "Error: " ++ e)
  | Recognized text r =>
      if enhance then
        match enhance_with_claude text r with
        | [] => Some text
        | enhanced_text => Some enhanced_text
        end
      else Some text
  end.

End with_unicode.

End Caption.

(** ** Facts about the gain stage *)

Module AudioFacts.
Import Audio Props.

Lemma clip_int16 v : int16 (clip v).
Proof. unfold int16, clip. lia. Qed.

Lemma clip_cases v :
  (int16 v → clip v = v) ∧ (32767 < v → clip v = 32767) ∧ (v < -32768 → clip v = -32768).
Proof. unfold int16, clip. lia. Qed.

Lemma byte_of_N_small n : (n < 256)%N → ∃ b, Byte.of_N n = Some b ∧ Byte.to_N b = n.
Proof.
  intros Hn. destruct (Byte.of_N n) as [b|] eqn:Hb.
  - exists b. split; [done|]. by apply Byte.to_of_N.
  - apply Byte.of_N_None_iff in Hb. lia.
Qed.

(** Packing a signed 16-bit value succeeds and unpacks to the same value. *)
Lemma pack16_unpack16 n :
  int16 n → ∃ lo hi, pack16 n = Some [lo; hi] ∧ unpack16 lo hi = n.
Proof.
  intros [Hlo Hhi]. unfold pack16.
  replace ((-32768 <=? n) && (n <=? 32767)) with true
    by (symmetry; apply andb_true_iff; split; apply Z.leb_le; lia).
  set (u := n mod 65536).
  assert (0 ≤ u < 65536) as Hu by (apply Z.mod_pos_bound; lia).
  destruct (byte_of_N_small (Z.to_N (u mod 256))) as (lo & -> & Hlo').
  { pose proof (Z.mod_pos_bound u 256). lia. }
  destruct (byte_of_N_small (Z.to_N (u / 256))) as (hi & -> & Hhi').
  { assert (u / 256 < 256) by (apply Z.div_lt_upper_bound; lia).
    assert (0 ≤ u / 256) by (apply Z.div_pos; lia). lia. }
  exists lo, hi. split; [done|]. unfold unpack16. rewrite Hlo', Hhi'.
  assert (0 ≤ u / 256) by (apply Z.div_pos; lia).
  pose proof (Z.mod_pos_bound u 256).
  rewrite !Z2N.id by lia.
  replace (u mod 256 + 256 * (u / 256)) with u by (rewrite (Z.div_mod u 256) at 1; lia).
  destruct (Z.ltb_spec n 0).
  - assert (u = n + 65536) as ->.
    { unfold u. symmetry. apply (Z.mod_unique n 65536 (-1)); lia. }
    destruct (Z.ltb_spec (n + 65536) 32768); lia.
  - assert (u = n) as -> by (unfold u; apply Z.mod_small; lia).
    destruct (Z.ltb_spec n 32768); lia.
Qed.

Lemma pack_unpack amplified :
  Forall int16 amplified → ∃ out, pack amplified = Some out ∧ unpack out = Some amplified.
Proof.
  induction 1 as [|n rest Hn _ (out & Hp & Hu)]; [by exists []|].
  destruct (pack16_unpack16 n Hn) as (lo & hi & Hp16 & Hu16).
  exists (lo :: hi :: out). cbn [pack]. rewrite Hp16, Hp. split; [done|].
  cbn [unpack]. by rewrite Hu, Hu16.
Qed.

(** The loop yields one clipped product per input sample, and raises exactly
    when one of the conversions [int(sample * gain)] does. *)
Lemma amplify_samples_spec samples gain amplified :
  amplify_samples samples gain = Some amplified ↔
  Forall2 (λ sample o, ∃ v, scale sample gain = Some v ∧ o = clip v) samples amplified.
Proof.
  revert amplified. induction samples as [|s rest IH]; intros amplified; cbn [amplify_samples].
  - split; [intros [= <-]; constructor | by inversion 1].
  - split.
    + intros H. destruct (scale s gain) as [v|] eqn:Hv; [|done].
      destruct (amplify_samples rest gain) as [a|] eqn:Ha; [|done].
      injection H as <-. constructor; [eauto | by apply IH].
    + inversion 1 as [|? o ? a' (v & Hv & ->) Hrest]; subst.
      apply IH in Hrest. by rewrite Hv, Hrest.
Qed.

Lemma amplify_samples_int16 samples gain amplified :
  amplify_samples samples gain = Some amplified → Forall int16 amplified.
Proof.
  intros H%amplify_samples_spec. induction H as [|???? (v & _ & ->)]; constructor;
    auto using clip_int16.
Qed.

Lemma amplify_samples_defined samples gain :
  (∀ sample, sample ∈ samples → is_Some (scale sample gain)) →
  is_Some (amplify_samples samples gain).
Proof.
  induction samples as [|s rest IH]; intros H; cbn [amplify_samples]; [done|].
  destruct (H s) as [v ->]; [by left|].
  destruct IH as [a ->]; [|done]. intros x Hx. apply H. by right.
Qed.

(** The samples read from a buffer are signed 16-bit values. *)
Lemma unpack_int16 audio_data samples :
  unpack audio_data = Some samples → Forall int16 samples.
Proof.
  revert samples. induction audio_data as [audio_data IH] using (induction_ltof1 _ length).
  destruct audio_data as [|lo [|hi rest]]; cbn [unpack]; intros samples H.
  - injection H as <-. constructor.
  - done.
  - destruct (unpack rest) as [tail|] eqn:Hrest; [|done]. injection H as <-.
    constructor; [|apply (IH rest); [unfold ltof; cbn; lia | done]].
    unfold int16, unpack16.
    assert (Byte.to_N lo ≤ 255)%N by apply Byte.to_N_bounded.
    assert (Byte.to_N hi ≤ 255)%N by apply Byte.to_N_bounded.
    destruct (_ <? _) eqn:Hlt; [apply Z.ltb_lt in Hlt | apply Z.ltb_ge in Hlt]; lia.
Qed.

(** *** The product and its truncation *)

Lemma all_from_spec f lo n x :
  all_from f lo n = true → lo ≤ x < lo + Z.of_nat n → f x = true.
Proof.
  revert lo. induction n as [|n IH]; intros lo H Hx; [lia|].
  cbn [all_from] in H. apply andb_true_iff in H as [H1 H2].
  destruct (decide (x = lo)) as [->|]; [done|]. apply (IH (lo + 1)); [done | lia].
Qed.

Lemma exactlyb_spec x n : exactlyb x n = true → exactly x n.
Proof.
  unfold exactlyb, exactly. destruct (Prim2SF x) as [?|?| |s m e]; try done.
  - by intros ?%Z.eqb_eq.
  - by intros ?%Z.eqb_eq.
Qed.

(** [float(sample)] is the sample, exactly: checked on each of the 65536
    samples. *)
Lemma every_sample_exact :
  all_from (λ sample, exactlyb (float_of_int sample) sample) (-32768) (Z.to_nat 65536) = true.
Proof. vm_compute. reflexivity. Qed.

Lemma float_of_int_exact sample : int16 sample → exactly (float_of_int sample) sample.
Proof.
  intros [Hlo Hhi]. apply exactlyb_spec.
  apply (all_from_spec (λ sample, exactlyb (float_of_int sample) sample) _ _ _
           every_sample_exact). lia.
Qed.

(** [int(x)] returns the truncation of [x], and raises when [x] has
    none. *)
Lemma int_of_float_truncates x v : int_of_float x = Some v ↔ truncates x v.
Proof.
  unfold int_of_float, truncates. destruct (Prim2SF x) as [?|?| |s m e]; try done.
  - split; [by intros [= <-] | by intros ->].
  - destruct (Z.leb_spec 0 e) as [He|He].
    + rewrite Z.max_l, Z.max_r by lia. rewrite Z.pow_0_r. split.
      * intros [= <-]. exists (Z.pos m * 2 ^ e). split; [done | lia].
      * intros (mag & -> & Hmag). f_equal. replace mag with (Z.pos m * 2 ^ e) by lia. done.
    + rewrite Z.max_r, Z.max_l by lia. rewrite Z.pow_0_r.
      assert (0 < 2 ^ (- e)) as Hpos by (apply Z.pow_pos_nonneg; lia).
      split.
      * intros [= <-]. exists (Z.pos m / 2 ^ (- e)). split; [done|].
        pose proof (Z.mul_div_le (Z.pos m) (2 ^ (- e)) Hpos).
        pose proof (Z.mul_succ_div_gt (Z.pos m) (2 ^ (- e)) Hpos). lia.
      * intros (mag & -> & Hmag). f_equal.
        assert (mag = Z.pos m / 2 ^ (- e)) as ->; [|done].
        apply (Z.div_unique_pos _ _ _ (Z.pos m - mag * 2 ^ (- e))); lia.
Qed.

Lemma scale_scaled sample gain v :
  int16 sample → scale sample gain = Some v → scaled sample gain v.
Proof.
  intros Hs. unfold scale, scaled. destruct gain as [g|g].
  - by intros [= <-].
  - intros Hv%int_of_float_truncates. exists (float_of_int sample).
    split; [by apply float_of_int_exact | done].
Qed.

(** C4.  Let [audio_data] hold the 16-bit samples [samples].  Whenever
    [amplify_audio] returns, its output holds one sample per input sample,
    each in [-32768, 32767]: the input sample times the gain, truncated to
    an integer, when that value is in range, 32767 when it is above and
    -32768 when it is below, never that value reduced modulo 2^16.  With an
    [int] gain the product is the product of integers and [amplify_audio]
    always returns.  With a [float] gain the sample is converted to the
    float that equals it, the product is the binary64 product, and
    [amplify_audio] returns exactly when every product has a truncation,
    that is, when none is infinite or not a number. *)
Theorem amplify_audio_clips (audio_data : list byte) (gain : number) (samples : list Z) :
  unpack audio_data = Some samples →
  (∀ out, amplify_audio audio_data gain = Some out →
     ∃ amplified,
       unpack out = Some amplified
       ∧ Forall2 (λ sample o,
            ∃ v, scaled sample gain v
                 ∧ -32768 ≤ o ≤ 32767
                 ∧ (-32768 ≤ v ≤ 32767 → o = v)
                 ∧ (32767 < v → o = 32767)
                 ∧ (v < -32768 → o = -32768))
          samples amplified)
  ∧ (∀ g, gain = PyInt g → is_Some (amplify_audio audio_data gain))
  ∧ (∀ g, gain = PyFloat g →
       Forall (λ sample, exactly (float_of_int sample) sample) samples
       ∧ (is_Some (amplify_audio audio_data gain)
          ↔ Forall (λ sample, ∃ v, truncates (float_of_int sample * g)%float v) samples)).
Proof.
  intros Hin. pose proof (unpack_int16 _ _ Hin) as Hint.
  assert (∀ amplified, amplify_samples samples gain = Some amplified →
            ∃ out, pack amplified = Some out ∧ unpack out = Some amplified) as Hpack.
  { intros amplified Ha. apply pack_unpack. by eapply amplify_samples_int16. }
  assert (is_Some (amplify_audio audio_data gain) ↔ is_Some (amplify_samples samples gain))
    as Hreturns.
  { unfold amplify_audio. rewrite Hin. cbn [mbind option_bind].
    destruct (amplify_samples samples gain) as [amplified|] eqn:Ha; cbn [mbind option_bind].
    - destruct (Hpack amplified eq_refl) as (out & -> & _). split; by eexists.
    - done. }
  split; [|split].
  - intros out Hout. unfold amplify_audio in Hout. rewrite Hin in Hout.
    cbn [mbind option_bind] in Hout.
    destruct (amplify_samples samples gain) as [amplified|] eqn:Ha; [|done].
    cbn [mbind option_bind] in Hout.
    destruct (Hpack amplified eq_refl) as (out' & Hp & Hu).
    assert (out' = out) as -> by congruence.
    exists amplified. split; [done|].
    apply amplify_samples_spec in Ha. clear Hreturns Hpack Hp Hu Hout Hin.
    induction Ha as [|sample o rest amplified' (v & Hv & ->) _ IH]; [constructor|].
    apply Forall_cons in Hint as [Hsample Hrest]. constructor; [|by apply IH].
    exists v. split; [by apply scale_scaled|].
    pose proof (clip_int16 v). pose proof (clip_cases v). unfold int16 in *. tauto.
  - intros g ->. apply Hreturns, amplify_samples_defined. by eexists.
  - intros g ->. split.
    { eapply Forall_impl; [exact Hint|]. intros sample. apply float_of_int_exact. }
    rewrite Hreturns. split.
    + intros [amplified Ha%amplify_samples_spec]. apply Forall_forall. intros sample Hsample.
      destruct (list_elem_of_lookup_1 _ _ Hsample) as [i Hi].
      destruct (Forall2_lookup_l _ _ _ i sample Ha Hi) as (o & _ & v & Hv & _).
      exists v. by apply int_of_float_truncates.
    + intros Hall. apply amplify_samples_defined. intros sample Hsample.
      destruct (proj1 (Forall_forall _ _) Hall sample Hsample) as [v Hv].
      exists v. by apply int_of_float_truncates.
Qed.

(** The samples -32767, 32767 and 16 under gain 2.5: the first two products
    leave the range and are clipped, the third is 40. *)
Lemma amplify_audio_clips_witness :
  unpack [x01; x80; xff; x7f; x10; x00] = Some [-32767; 32767; 16]
  ∧ amplify_audio [x01; x80; xff; x7f; x10; x00] (PyFloat 2.5%float)
    = Some [x00; x80; xff; x7f; x28; x00]
  ∧ unpack [x00; x80; xff; x7f; x28; x00] = Some [-32768; 32767; 40]
  ∧ (∀ out, amplify_audio [x01; x80; xff; x7f; x10; x00] (PyFloat 2.5%float) = Some out →
       ∃ amplified,
         unpack out = Some amplified
         ∧ Forall2 (λ sample o,
              ∃ v, scaled sample (PyFloat 2.5%float) v
                   ∧ -32768 ≤ o ≤ 32767
                   ∧ (-32768 ≤ v ≤ 32767 → o = v)
                   ∧ (32767 < v → o = 32767)
                   ∧ (v < -32768 → o = -32768))
            [-32767; 32767; 16] amplified).
Proof.
  split; [reflexivity|]. split; [reflexivity|]. split; [reflexivity|].
  apply (amplify_audio_clips [x01; x80; xff; x7f; x10; x00] (PyFloat 2.5%float)
           [-32767; 32767; 16]).
  reflexivity.
Defined.

(** A product that overflows the floats, or a gain that is not a number,
    makes [int(...)] raise: no sample is produced at all. *)
Example amplify_audio_raises :
  amplify_audio [x10; x00] (PyFloat infinity) = None
  ∧ amplify_audio [x10; x00] (PyFloat nan) = None
  ∧ amplify_audio [x10; x00; x01] (PyFloat 3%float) = None.
Proof. repeat split; reflexivity. Qed.

(** The rounded product is what [int] truncates: three times the float
    nearest to one third is 1.0, and one half of 7 is 3.5. *)
Example scale_rounds_then_truncates :
  scale 3 (PyFloat (1 / 3)%float) = Some 1
  ∧ scale 7 (PyFloat 0.5%float) = Some 3
  ∧ scale (-7) (PyFloat 0.5%float) = Some (-3)
  ∧ scale (-7) (PyInt 3) = Some (-21).
Proof. repeat split; reflexivity. Qed.

End AudioFacts.

(** ** Facts about the [str] methods *)

Module StrFacts.
Import Str.

(** The slice and the prefix test are the library's [take] and
    [prefix_of]. *)
Lemma slice_to_take n (s : str) : slice_to n s = take n s.
Proof. revert s. induction n as [|n IH]; intros [|c s]; cbn; [done..|]. by rewrite IH. Qed.

Lemma startswith_prefix (s prefix : str) : startswith s prefix = true ↔ prefix `prefix_of` s.
Proof.
  revert s. induction prefix as [|p prefix IH]; intros [|c s]; cbn.
  - split; [intros _; apply prefix_nil | done].
  - split; [intros _; apply prefix_nil | done].
  - split; [done | intros H%prefix_nil_inv; done].
  - destruct (N.eqb_spec c p) as [->|Hne].
    + rewrite IH. split; [apply prefix_cons | apply prefix_cons_inv_2].
    + split; [done | intros H%prefix_cons_inv_1; congruence].
Qed.

Lemma length_slice_to n (s : str) : length (slice_to n s) = Nat.min n (length s).
Proof. by rewrite slice_to_take, length_take. Qed.

Lemma slice_to_all n (s : str) : (length s ≤ n)%nat → slice_to n s = s.
Proof. intros ?. rewrite slice_to_take. by apply take_ge. Qed.

(** [s.startswith(prefix)] compares [prefix] with as many leading characters
    of [s] as [prefix] has. *)
Lemma startswith_slice (s prefix : str) :
  startswith s prefix = true ↔ slice_to (length prefix) s = prefix.
Proof.
  rewrite startswith_prefix, slice_to_take. split.
  - intros [tail ->]. by rewrite take_app_length.
  - intros <-. apply prefix_take.
Qed.

Lemma startswith_three (s tok : str) :
  (3 ≤ length tok)%nat →
  startswith s (slice_to 3 tok) = true ↔ slice_to 3 s = slice_to 3 tok.
Proof.
  intros Hlen. rewrite startswith_slice, length_slice_to.
  by replace (Nat.min 3 (length tok)) with 3%nat by lia.
Qed.

End StrFacts.

(** ** Facts about the reconciler *)

Module ReconcilerFacts.
Import Str Sink App Reconciler Props Scenarios StrFacts.

Lemma range_nil lo hi : hi ≤ lo → range lo hi = [].
Proof. intros H. unfold range. by replace (Z.to_nat (hi - lo)) with 0%nat by lia. Qed.

Lemma range_cons lo hi : lo < hi → range lo hi = lo :: range (lo + 1) hi.
Proof.
  intros H. unfold range.
  replace (Z.to_nat (hi - lo)) with (S (Z.to_nat (hi - (lo + 1)))) by lia.
  cbn [seq fmap list_fmap]. f_equal; [lia|].
  rewrite <- seq_shift, <- list_fmap_compose. apply list_fmap_ext.
  intros _ i _. cbn. lia.
Qed.


(** The loop stops at the least index of the range whose word passes the
    test. *)
Lemma first_hit_range word_list prefix lo hi :
  0 ≤ lo → hi ≤ Z.of_nat (length word_list) →
  match first_hit word_list prefix (range lo hi) with
  | Some (wi, s) =>
      lo ≤ wi < hi ∧
      (∃ w, word_list !! Z.to_nat wi = Some (w, s) ∧ startswith w prefix = true) ∧
      ∀ j w' s', lo ≤ j < wi → word_list !! Z.to_nat j = Some (w', s') →
        startswith w' prefix = false
  | None =>
      ∀ j w' s', lo ≤ j < hi → word_list !! Z.to_nat j = Some (w', s') →
        startswith w' prefix = false
  end.
Proof.
  intros Hlo Hhi. remember (Z.to_nat (hi - lo)) as n eqn:Hn.
  revert lo Hlo Hn. induction n as [|n IH]; intros lo Hlo Hn.
  - rewrite range_nil by lia. cbn. intros; lia.
  - rewrite range_cons by lia. cbn [first_hit].
    destruct (lookup_lt_is_Some_2 word_list (Z.to_nat lo)) as [[w s] Hw]; [lia|].
    rewrite Hw. destruct (startswith w prefix) eqn:Hs.
    + split; [lia|]. split; [eauto|]. intros; lia.
    + specialize (IH (lo + 1) ltac:(lia) ltac:(lia)).
      destruct (first_hit word_list prefix (range (lo + 1) hi)) as [[wi s']|].
      * destruct IH as (? & ? & Hbefore). split; [lia|]. split; [done|].
        intros j w' s'' Hj Hl. destruct (decide (j = lo)) as [->|]; [congruence|].
        eapply Hbefore; [|done]. lia.
      * intros j w' s'' Hj Hl. destruct (decide (j = lo)) as [->|]; [congruence|].
        eapply IH; [|done]. lia.
Qed.

Lemma find_match_spec word_list word_idx clean_iw :
  match find_match word_list word_idx clean_iw with
  | Some (wi, s) =>
      in_window word_list word_idx wi ∧
      (∃ w, word_list !! Z.to_nat wi = Some (w, s) ∧ take 3 clean_iw `prefix_of` w) ∧
      ∀ j, in_window word_list word_idx j → j < wi → ¬ is_hit word_list clean_iw j
  | None => ∀ j, in_window word_list word_idx j → ¬ is_hit word_list clean_iw j
  end.
Proof.
  unfold find_match, window, in_window, is_hit.
  pose proof (first_hit_range word_list (slice_to 3 clean_iw)
    (Z.max 0 (word_idx - 5)) (Z.min (Z.of_nat (length word_list)) (word_idx + 20))
    ltac:(lia) ltac:(lia)) as H.
  destruct first_hit as [[wi s]|].
  - destruct H as (? & (w & Hl & Hs) & Hbefore). split; [done|]. split.
    { exists w. split; [done|]. rewrite <- slice_to_take. by apply startswith_prefix. }
    intros j Hj Hlt (w' & s' & Hl' & Hs').
    rewrite <- slice_to_take in Hs'. apply startswith_prefix in Hs'.
    rewrite (Hbefore j w' s') in Hs'; [done|lia|done].
  - intros j Hj (w' & s' & Hl' & Hs').
    rewrite <- slice_to_take in Hs'. apply startswith_prefix in Hs'.
    rewrite (H j w' s') in Hs'; done.
Qed.

(** The cleaning keeps the alphanumeric characters, in order. *)
Lemma alnum_only_filter {U : unicode} (s : str) : alnum_only s = List.filter isalnum s.
Proof. induction s as [|c rest IH]; cbn; [done|]. by rewrite IH. Qed.

Lemma match_word_empty {U : unicode} word_list st iw :
  alnum_only iw = [] → match_word word_list st iw = st.
Proof. intros H. destruct st. unfold match_word. by rewrite H. Qed.

Lemma match_word_nonempty {U : unicode} word_list speaker_votes word_idx iw :
  alnum_only iw ≠ [] →
  match_word word_list (speaker_votes, word_idx) iw =
  match find_match word_list word_idx (alnum_only iw) with
  | Some (wi, s) => (set_item speaker_votes s (get speaker_votes s 0 + 1), wi + 1)
  | None => (speaker_votes, word_idx)
  end.
Proof. intros H. unfold match_word. by destruct (alnum_only iw). Qed.

(** The search either finds the first match of the token, or the token has
    none. *)
Lemma match_word_cases {U : unicode} word_list speaker_votes word_idx iw :
  (∃ wi w s,
     first_match word_list word_idx iw wi
     ∧ word_list !! Z.to_nat wi = Some (w, s)
     ∧ match_word word_list (speaker_votes, word_idx) iw
       = (set_item speaker_votes s (get speaker_votes s 0 + 1), wi + 1))
  ∨ ((List.filter isalnum iw = []
      ∨ (List.filter isalnum iw ≠ []
         ∧ ∀ j, in_window word_list word_idx j →
                ¬ is_hit word_list (List.filter isalnum iw) j))
     ∧ match_word word_list (speaker_votes, word_idx) iw = (speaker_votes, word_idx)).
Proof.
  unfold first_match. rewrite <- alnum_only_filter.
  destruct (decide (alnum_only iw = [])) as [He|Hne].
  { right. split; [by left | by apply match_word_empty]. }
  rewrite match_word_nonempty by done.
  pose proof (find_match_spec word_list word_idx (alnum_only iw)) as Hspec.
  destruct (find_match word_list word_idx (alnum_only iw)) as [[wi s]|].
  - destruct Hspec as (Hwin & (w & Hl & Hs) & Hfirst). left. exists wi, w, s.
    split; [|done]. split; [done|]. split; [done|]. split; [by exists w, s | done].
  - right. split; [by right | done].
Qed.

(** A token has at most one first match. *)
Lemma first_match_unique {U : unicode} word_list word_idx iw wi wj :
  first_match word_list word_idx iw wi → first_match word_list word_idx iw wj → wi = wj.
Proof.
  intros (_ & Hwi & Hhi & Hfi) (_ & Hwj & Hhj & Hfj).
  destruct (Z.lt_trichotomy wi wj) as [Hlt|[->|Hlt]]; [|done|].
  - by destruct (Hfj wi Hwi Hlt).
  - by destruct (Hfi wj Hwj Hlt).
Qed.

Lemma token_step_match_word {U : unicode} word_list st iw :
  token_step word_list st iw (match_word word_list st iw).
Proof.
  destruct st as [speaker_votes word_idx].
  destruct (match_word_cases word_list speaker_votes word_idx iw)
    as [(wi & w & s & Hm & Hl & ->)|[[He|[Hne Hnone]] ->]].
  - by eapply token_voted.
  - by apply token_skipped.
  - by apply token_missed.
Qed.

Lemma token_step_unique {U : unicode} word_list st iw st' :
  token_step word_list st iw st' → st' = match_word word_list st iw.
Proof.
  intros Hstep. destruct Hstep as [st iw He|votes idx iw Hne Hnone|votes idx iw wi w s Hm Hl].
  - destruct st as [votes idx].
    destruct (match_word_cases word_list votes idx iw)
      as [(wi & w & s & (Hne & _) & _)|[_ ->]]; done.
  - destruct (match_word_cases word_list votes idx iw)
      as [(wi & w & s & (_ & Hwin & Hhit & _) & _)|[_ ->]]; [|done].
    by destruct (Hnone wi Hwin).
  - destruct (match_word_cases word_list votes idx iw)
      as [(wi' & w' & s' & Hm' & Hl' & ->)|[[He|[_ Hnone]] _]].
    + assert (wi' = wi) as -> by (by eapply first_match_unique). by simplify_eq.
    + by destruct Hm as (Hne & _).
    + destruct Hm as (_ & Hwin & Hhit & _). by destruct (Hnone wi Hwin).
Qed.

Lemma segment_steps_foldl {U : unicode} word_list st tokens :
  segment_steps word_list st tokens (foldl (match_word word_list) st tokens).
Proof.
  revert st. induction tokens as [|iw rest IH]; intros st; cbn [foldl].
  - constructor.
  - econstructor; [apply token_step_match_word | apply IH].
Qed.

Lemma segment_steps_unique {U : unicode} word_list st tokens final :
  segment_steps word_list st tokens final → final = foldl (match_word word_list) st tokens.
Proof.
  induction 1 as [st|st iw st' rest st'' Hstep _ IH]; [done|].
  cbn [foldl]. by rewrite <- (token_step_unique _ _ _ _ Hstep).
Qed.

(** *** What [split] returns *)

Lemma split_from_space {U : unicode} (word : str) c s :
  isspace c = true →
  split_from word (c :: s) = match word with [] => split s | _ => word :: split s end.
Proof. intros Hc. cbn [split_from]. rewrite Hc. by destruct word. Qed.

Lemma split_from_word {U : unicode} (word tok s : str) :
  Forall (λ c, isspace c = false) tok →
  split_from word (tok ++ s) = split_from (word ++ tok) s.
Proof.
  intros Htok. revert word. induction Htok as [|c tok Hc _ IH]; intros word.
  - by rewrite app_nil_r.
  - cbn [Datatypes.app split_from]. rewrite Hc, IH. by rewrite <- app_assoc.
Qed.

(** A text is a run of characters that are not white space, followed by
    nothing or by a white space character. *)
Lemma leading_word {U : unicode} (s : str) :
  ∃ tok rest, s = tok ++ rest
    ∧ Forall (λ c, isspace c = false) tok
    ∧ (rest = [] ∨ ∃ c s', rest = c :: s' ∧ isspace c = true)
    ∧ (length rest ≤ length s)%nat.
Proof.
  induction s as [|c s (tok & rest & -> & Htok & Hrest & Hlen)].
  - exists [], []. split; [done|]. split; [constructor|]. split; [by left | done].
  - destruct (isspace c) eqn:Hc.
    + exists [], (c :: tok ++ rest). split; [done|]. split; [constructor|].
      split; [right; by eauto | done].
    + exists (c :: tok), rest. split; [done|]. split; [by constructor|]. split; [done|].
      cbn. rewrite length_app in *. lia.
Qed.

Lemma words_of_split {U : unicode} (s : str) : words_of s (split s).
Proof.
  induction s as [s IH] using (induction_ltof1 _ length).
  destruct s as [|c s]; [constructor|].
  destruct (isspace c) eqn:Hc.
  - unfold split. rewrite split_from_space by done. apply words_space; [done|].
    apply IH. unfold ltof. cbn. lia.
  - destruct (leading_word s) as (tok & rest & -> & Htok & Hrest & Hlen).
    change (c :: tok ++ rest) with ((c :: tok) ++ rest). unfold split.
    rewrite split_from_word by (by constructor). rewrite app_nil_l.
    assert (words_of rest (split rest)) as Hwords.
    { apply IH. unfold ltof. cbn. rewrite length_app. lia. }
    destruct Hrest as [->|(d & s' & -> & Hd)].
    + cbn [split_from].
      apply (words_word (c :: tok) [] []); [done | by constructor | by left | constructor].
    + rewrite split_from_space by done.
      apply (words_word (c :: tok) (d :: s') (split s'));
        [done | by constructor | right; by eauto |].
      unfold split in Hwords. by rewrite split_from_space in Hwords.
Qed.

(** C5 (as amended).  The tokens of a segment are the words of its
    lowercased text, in order.  Each token is cleaned of the characters that
    are not alphanumeric; a token whose cleaned form is empty is skipped.
    Otherwise the search runs over the window from five words behind the
    cursor (not below 0) to twenty words ahead (not beyond the timeline); a
    timeline word is a hit when it starts with the first three characters of
    the cleaned token, the first hit of the window receives the vote and the
    cursor is set just past it, and with no hit in the window nothing
    changes.  This fixes what [match_word] and [match_item] return.  For a
    cleaned token of three characters or more, starting with its first
    three characters is the same as having equal first three characters. *)
Theorem match_word_first_hit {U : unicode} (word_list : list (str * Z)) (word_idx : Z)
  (text : str) :
  (∀ st iw, token_step word_list st iw (match_word word_list st iw))
  ∧ (∀ st iw st', token_step word_list st iw st' → st' = match_word word_list st iw)
  ∧ words_of (lower text) (split (lower text))
  ∧ segment_steps word_list ([], word_idx) (split (lower text))
      (match_item word_list word_idx text)
  ∧ (∀ final, segment_steps word_list ([], word_idx) (split (lower text)) final →
       final = match_item word_list word_idx text)
  ∧ (∀ w clean : str, (3 ≤ length clean)%nat →
       take 3 clean `prefix_of` w ↔ take 3 w = take 3 clean).
Proof.
  split; [apply token_step_match_word|]. split; [apply token_step_unique|].
  split; [apply words_of_split|]. split; [apply segment_steps_foldl|].
  split; [apply segment_steps_unique|].
  intros w clean Hlen. rewrite <- !slice_to_take, <- startswith_prefix.
  by apply startswith_three.
Qed.

(** C5, as stated, fails: the token "a" has one character, and the timeline
    word "and" is a hit for it although the first three characters of the
    two differ. *)
Lemma short_token_hits_longer_word :
  match_word [(lit "and", 2)] ([], 0) (lit "a") = ([(2, 1)], 1)
  ∧ take 3 (lit "and") ≠ take 3 (lit "a").
Proof. split; [reflexivity | discriminate]. Qed.

(** With the tables of Latin-1 the token "é" is kept by the cleaning and
    votes on the timeline word "école". *)
Example accented_token_votes :
  match_word [([233; 99; 111; 108; 101]%N, 2)] ([], 0) [233%N] = ([(2, 1)], 1).
Proof. reflexivity. Qed.

(** C6 (as amended).  A token that has a match sets the cursor just past
    the matched word, the first hit of the window; as the window opens five
    words behind the cursor and ends with the timeline, the new cursor is
    at least the old one minus 4 and at most the length of the timeline,
    and it is strictly greater than the old one when the match is at or
    after the old cursor.  A token that has no match leaves the cursor and
    the tally as they are.  Every token is of one kind or the other. *)
Theorem match_word_cursor {U : unicode} (word_list : list (str * Z)) (speaker_votes : tally)
  (word_idx : Z) (iw : str) :
  (∀ wi, first_match word_list word_idx iw wi →
     (match_word word_list (speaker_votes, word_idx) iw).2 = wi + 1
     ∧ word_idx - 4 ≤ wi + 1 ≤ Z.of_nat (length word_list)
     ∧ (word_idx ≤ wi → word_idx < wi + 1)
     ∧ (wi < word_idx → wi + 1 ≤ word_idx))
  ∧ ((∀ wi, ¬ first_match word_list word_idx iw wi) →
     match_word word_list (speaker_votes, word_idx) iw = (speaker_votes, word_idx))
  ∧ ((∃ wi, first_match word_list word_idx iw wi)
     ∨ (∀ wi, ¬ first_match word_list word_idx iw wi)).
Proof.
  destruct (match_word_cases word_list speaker_votes word_idx iw)
    as [(wi & w & s & Hm & Hl & ->)|[Hno ->]].
  - split; [|split; [|left; by eauto]].
    + intros wj Hmj. assert (wj = wi) as -> by (by eapply first_match_unique).
      destruct Hm as (_ & Hwin & _). unfold in_window in Hwin. cbn [snd]. lia.
    + intros Hnone. by destruct (Hnone wi).
  - assert (∀ wi, ¬ first_match word_list word_idx iw wi) as Hnone.
    { intros wi (Hne & Hwin & Hhit & _). destruct Hno as [He|[_ Hno]]; [done|].
      by destruct (Hno wi Hwin). }
    split; [|split; [done | by right]]. intros wi Hm. by destruct (Hnone wi).
Qed.

(** C6, as stated, fails: with the timeline hello, world, foo and the
    segment "world hello", the token "world" puts the cursor at 2 and the
    token "hello", found behind it, puts the cursor back at 1. *)
Lemma cursor_moves_back :
  match_word timeline ([], 0) (lit "world") = ([(1, 1)], 2)
  ∧ match_word timeline ([(1, 1)], 2) (lit "hello") = ([(1, 2)], 1)
  ∧ match_item timeline 0 (lit "world hello") = ([(1, 2)], 1)
  ∧ (match_word timeline ([(1, 1)], 2) (lit "hello")).2 < 2.
Proof. repeat split; reflexivity. Qed.

(** *** The vote tally as a dict *)

Lemma get_set_item_eq (speaker_votes : tally) s v d : get (set_item speaker_votes s v) s d = v.
Proof.
  induction speaker_votes as [|[k v0] rest IH]; cbn.
  - by rewrite decide_True.
  - destruct (decide (k = s)); cbn; [by rewrite decide_True | by rewrite decide_False].
Qed.

Lemma get_set_item_ne (speaker_votes : tally) s t v d :
  t ≠ s → get (set_item speaker_votes s v) t d = get speaker_votes t d.
Proof.
  intros Hne. induction speaker_votes as [|[k v0] rest IH]; cbn.
  - by rewrite decide_False.
  - destruct (decide (k = s)) as [->|]; cbn.
    + by rewrite !decide_False.
    + destruct (decide (k = t)); done.
Qed.





Lemma most_common_None (speaker_votes : tally) :
  most_common speaker_votes = None ↔ speaker_votes = [].
Proof. unfold most_common. by destruct speaker_votes. Qed.

(** The palettes have five entries, so the index is [(speaker - 1) mod 5]. *)
Lemma pick_colors speaker :
  pick speaker_colors speaker
  = nth (Z.to_nat ((speaker - 1) mod 5)) speaker_colors EmptyString.
Proof. reflexivity. Qed.

Lemma pick_names speaker :
  pick speaker_names speaker
  = nth (Z.to_nat ((speaker - 1) mod 5)) speaker_names EmptyString.
Proof. reflexivity. Qed.



(** The palette index wraps around: speaker 6 shares the entries of
    speaker 1, and speaker 0 takes the last ones. *)
Example palette_wraps :
  pick speaker_colors 6 = "#3498db"%string
  ∧ pick speaker_names 6 = "Speaker 1"%string
  ∧ pick speaker_names 5 = "Speaker 5"%string
  ∧ pick speaker_names 0 = "Speaker 5"%string.
Proof. repeat split; reflexivity. Qed.

(** *** Idempotent resolution *)

Lemma speaker_update_ids_app log1 log2 :
  speaker_update_ids (log1 ++ log2) = speaker_update_ids log1 ++ speaker_update_ids log2.
Proof. apply omap_app. Qed.

Lemma speaker_update_ids_announce item speaker log :
  speaker_update_ids (announce item speaker ++ log) = item_id item :: speaker_update_ids log.
Proof. reflexivity. Qed.

Lemma announces_fresh_silent P log :
  speaker_update_ids log = [] → announces_fresh P (log, P).
Proof.
  intros H. unfold announces_fresh. cbn [fst snd]. rewrite H.
  split; [constructor|]. split; [by intros ? ?%elem_of_nil | done].
Qed.

Lemma announces_fresh_seq P r1 r2 :
  announces_fresh P r1 → announces_fresh r1.2 r2 →
  announces_fresh P (r1.1 ++ r2.1, r2.2).
Proof.
  intros (Hnd1 & Hin1 & Hsub1) (Hnd2 & Hin2 & Hsub2). unfold announces_fresh. cbn [fst snd].
  rewrite speaker_update_ids_app. split; [|split].
  - apply NoDup_app. split; [done|]. split; [|done].
    intros id H1 H2. apply Hin1 in H1 as [_ H1]. apply Hin2 in H2 as [H2 _]. done.
  - intros id [H|H]%elem_of_app.
    + apply Hin1 in H as [??]. split; [done|]. by apply Hsub2.
    + apply Hin2 in H as [H ?]. split; [|done]. intros ?. apply H. by apply Hsub1.
  - by etrans.
Qed.

Lemma scan_fresh {U : unicode} word_list items word_idx P :
  announces_fresh P (scan word_list items word_idx P).
Proof.
  revert word_idx P. induction items as [|item rest IH]; intros word_idx P; cbn [scan].
  { by apply announces_fresh_silent. }
  destruct (decide (item_id item ∈ P)) as [Hin|Hnew]; [apply IH|].
  destruct (match_item word_list word_idx (item_text item)) as [votes idx'].
  destruct (most_common votes) as [speaker|]; [|apply IH].
  specialize (IH idx' ({[item_id item]} ∪ P)).
  destruct (scan word_list rest idx' ({[item_id item]} ∪ P)) as [log P'].
  destruct IH as (Hnd & Hfresh & Hsub). unfold announces_fresh. cbn [fst snd] in *.
  rewrite speaker_update_ids_announce. split; [|split].
  - constructor; [|done]. intros [H _]%Hfresh. apply H. set_solver +.
  - intros id [->|H]%elem_of_cons; [set_solver + Hnew Hsub|].
    apply Hfresh in H as [H ?]. split; [set_solver + H | done].
  - set_solver + Hsub.
Qed.


(** The shapes a tick can take. *)
Lemma diarize_cases {U : unicode} P audio_data recognize ledger :
  ∃ log P',
    diarize P audio_data recognize ledger
    = (Console (RunningDiarization (Z.of_nat (length audio_data)))
         :: Recognize audio_data :: log, P')
    ∧ ((speaker_update_ids log = [] ∧ P' = P)
       ∨ ∃ words results pre,
           recognize = Returned results ∧ last results = Some (words :: pre)
           ∧ log = Console (GotWords (Z.of_nat (length words)))
                     :: (scan (build_word_list words) ledger 0 P).1
           ∧ P' = (scan (build_word_list words) ledger 0 P).2).
Proof.
  unfold diarize. destruct recognize as [r|e]; [|by eauto 10].
  destruct (last r) as [[|words pre]|] eqn:Hlast; [by eauto 10| |by eauto 10].
  destruct (scan (build_word_list words) ledger 0 P) as [log P'] eqn:Hscan.
  eexists _, _. split; [done|]. right. exists words, r, pre. by rewrite Hscan.
Qed.

Lemma diarize_fresh {U : unicode} P audio_data recognize ledger :
  announces_fresh P (diarize P audio_data recognize ledger).
Proof.
  destruct (diarize_cases P audio_data recognize ledger)
    as (log & P' & -> & [[Hnone ->]|(words & r & pre & _ & _ & -> & ->)]).
  - by apply announces_fresh_silent.
  - apply (scan_fresh (build_word_list words) ledger 0 P).
Qed.

Lemma tick_fresh {U : unicode} P env : announces_fresh P (tick P env).
Proof.
  unfold tick. destruct (unprocessed (ledger_at_check env) P).
  { by apply announces_fresh_silent. }
  destruct (_ <? _); [by apply announces_fresh_silent | apply diarize_fresh].
Qed.

Lemma ticks_fresh {U : unicode} P envs : announces_fresh P (ticks P envs).
Proof.
  revert P. induction envs as [|env rest IH]; intros P; cbn [ticks].
  { by apply announces_fresh_silent. }
  destruct (running env); [|by apply announces_fresh_silent].
  pose proof (tick_fresh P env) as H1. destruct (tick P env) as [log1 P1].
  pose proof (IH P1) as H2. destruct (ticks P1 rest) as [log2 P2].
  apply (announces_fresh_seq P (log1, P1) (log2, P2) H1 H2).
Qed.

(** One reconciler never announces an id twice: whatever it reads of the
    ledgers at each tick and whatever the diarization service answers, the
    [speaker_update] events of one run of [run_diarization] carry pairwise
    distinct segment ids. *)
Lemma speaker_update_once {U : unicode} (envs : list tick_env) :
  NoDup (speaker_update_ids (run_diarization envs).1).
Proof.
  unfold run_diarization. pose proof (ticks_fresh ∅ envs) as (H & _).
  by destruct (ticks ∅ envs).
Qed.

(** An id that is processed before a tick is not announced by it, and stays
    processed. *)
Lemma processed_is_final {U : unicode} P env id :
  id ∈ P → (id ∉ speaker_update_ids (fst (tick P env))) ∧ id ∈ snd (tick P env).
Proof.
  intros Hin. destruct (tick_fresh P env) as (_ & Hnew & Hsub).
  split; [|by apply Hsub]. intros H. by apply Hnew in H as [? _].
Qed.

(** *** Skipped and failed ticks *)

(** C8.  A tick that finds no unprocessed segment, or less than 320000
    bytes of buffered audio, makes no diarization request, emits no
    [speaker_update] and leaves the processed set as it was.  The
    unprocessed test comes first: with no unprocessed segment the tick does
    nothing at all, whatever the audio, while with an unprocessed segment
    and too little audio it reports that it is waiting for more audio. *)
Theorem tick_skips {U : unicode} (processed_captions : gset Z) (env : tick_env) :
  unprocessed (ledger_at_check env) processed_captions = []
  ∨ Z.of_nat (length (concat (frames env))) < 320000 →
  requests (tick processed_captions env).1 = []
  ∧ speaker_update_ids (tick processed_captions env).1 = []
  ∧ (tick processed_captions env).2 = processed_captions
  ∧ (unprocessed (ledger_at_check env) processed_captions = [] →
       (tick processed_captions env).1 = [])
  ∧ (unprocessed (ledger_at_check env) processed_captions ≠ [] →
       (tick processed_captions env).1 = [Console WaitingForAudio]).
Proof.
  intros H. unfold tick. change (Audio.RATE * 2 * 10) with 320000.
  destruct (unprocessed (ledger_at_check env) processed_captions) as [|t rest] eqn:Hun.
  { by repeat split. }
  destruct H as [H|H]; [done|].
  destruct (Z.ltb_spec (Z.of_nat (length (concat (frames env)))) 320000); [|lia].
  by repeat split.
Qed.

Lemma tick_skips_witness :
  Z.of_nat (length (concat (frames
    {| running := true; ledger_at_check := [hello_world]; frames := [[x01; x00]; [x02; x00]];
       recognize := Returned [[hello_world_words]]; ledger_at_scan := [hello_world] |})))
  < 320000
  ∧ requests (tick ∅
      {| running := true; ledger_at_check := [hello_world]; frames := [[x01; x00]; [x02; x00]];
         recognize := Returned [[hello_world_words]]; ledger_at_scan := [hello_world] |}).1 = []
  ∧ speaker_update_ids (tick ∅
      {| running := true; ledger_at_check := [hello_world]; frames := [[x01; x00]; [x02; x00]];
         recognize := Returned [[hello_world_words]]; ledger_at_scan := [hello_world] |}).1 = []
  ∧ (tick ∅
      {| running := true; ledger_at_check := [hello_world]; frames := [[x01; x00]; [x02; x00]];
         recognize := Returned [[hello_world_words]]; ledger_at_scan := [hello_world] |}).2 = ∅.
Proof.
  split; [reflexivity|].
  destruct (tick_skips ∅
    {| running := true; ledger_at_check := [hello_world]; frames := [[x01; x00]; [x02; x00]];
       recognize := Returned [[hello_world_words]]; ledger_at_scan := [hello_world] |})
    as (H1 & H2 & H3 & _).
  - right. reflexivity.
  - exact (conj H1 (conj H2 H3)).
Defined.

(** With nothing left to process the tick is silent even when the audio is
    short; the short audio is reported only when a segment is waiting. *)
Example unprocessed_test_comes_first :
  (tick {[0]} {| running := true; ledger_at_check := [hello_world]; frames := [];
                 recognize := Returned []; ledger_at_scan := [hello_world] |}).1 = []
  ∧ (tick ∅ {| running := true; ledger_at_check := [hello_world]; frames := [];
               recognize := Returned []; ledger_at_scan := [hello_world] |}).1
    = [Console WaitingForAudio].
Proof. split; reflexivity. Qed.

(** C9.  When the diarization request of a tick fails, the exception is
    caught: the tick emits no [speaker_update] and leaves the processed set
    as it was, so every segment that was unprocessed is still unprocessed;
    the loop goes on with the next tick exactly as it would have from the
    same processed set; and when the request was made at all, the tick's
    log is the request followed by the console line of the error. *)
Theorem failed_request_skips_tick {U : unicode} (processed_captions : gset Z) (env : tick_env)
  (rest : list tick_env) (e : string) :
  running env = true →
  recognize env = Failed e →
  speaker_update_ids (tick processed_captions env).1 = []
  ∧ (tick processed_captions env).2 = processed_captions
  ∧ (∀ ledger, unprocessed ledger (tick processed_captions env).2
               = unprocessed ledger processed_captions)
  ∧ ticks processed_captions (env :: rest)
    = ((tick processed_captions env).1 ++ (ticks processed_captions rest).1,
       (ticks processed_captions rest).2)
  ∧ (requests (tick processed_captions env).1 ≠ [] →
       (tick processed_captions env).1
       = [Console (RunningDiarization (Z.of_nat (length (concat (frames env)))));
          Recognize (concat (frames env));
          Console (DiarizationError e)]).
Proof.
  intros Hrun Hfail.
  assert (speaker_update_ids (tick processed_captions env).1 = []
          ∧ (tick processed_captions env).2 = processed_captions
          ∧ (requests (tick processed_captions env).1 ≠ [] →
             (tick processed_captions env).1
             = [Console (RunningDiarization (Z.of_nat (length (concat (frames env)))));
                Recognize (concat (frames env));
                Console (DiarizationError e)])) as (Hids & Hsame & Hlog).
  { unfold tick. destruct (unprocessed (ledger_at_check env) processed_captions); [done|].
    destruct (_ <? _); [done|]. unfold diarize. rewrite Hfail. done. }
  split; [done|]. split; [done|]. split; [by rewrite Hsame|]. split; [|done].
  cbn [ticks]. rewrite Hrun.
  destruct (tick processed_captions env) as [log1 P1]. cbn [fst snd] in *. subst P1.
  by destruct (ticks processed_captions rest).
Qed.

Lemma failed_request_skips_tick_witness :
  running failing_tick = true
  ∧ recognize failing_tick = Failed "503 Service Unavailable"
  ∧ speaker_update_ids (tick ∅ failing_tick).1 = []
  ∧ (tick ∅ failing_tick).2 = ∅
  ∧ ticks ∅ [failing_tick; good_tick]
    = ((tick ∅ failing_tick).1 ++ (ticks ∅ [good_tick]).1, (ticks ∅ [good_tick]).2).
Proof.
  split; [reflexivity|]. split; [reflexivity|].
  destruct (failed_request_skips_tick ∅ failing_tick [good_tick] "503 Service Unavailable")
    as (H1 & H2 & _ & H4 & _); [reflexivity | reflexivity |].
  exact (conj H1 (conj H2 H4)).
Defined.

(** The segment that the failed tick left unprocessed is resolved by the
    next tick, once. *)
Example resolved_after_failure :
  speaker_update_ids (run_diarization [failing_tick; good_tick; good_tick]).1 = [0]
  ∧ length (requests (run_diarization [failing_tick; good_tick; good_tick]).1) = 2%nat.
Proof. split; vm_compute; reflexivity. Qed.

End ReconcilerFacts.

(** ** Facts about the streaming driver *)

Module StreamFacts.
Import Str Sink App Stream Props Scenarios.

Lemma consecutive_cons first n : consecutive first (S n) = first :: consecutive (first + 1) n.
Proof.
  unfold consecutive. cbn [seq fmap list_fmap]. f_equal; [lia|].
  rewrite <- seq_shift, <- list_fmap_compose. apply list_fmap_ext. intros _ i _. cbn. lia.
Qed.


(** One response yields no [final] event and leaves the counter alone, or
    yields one, with the counter as its id, and advances the counter. *)
Lemma handle_response_ids self now r :
  (final_ids (handle_response self now r).2 = []
   ∧ caption_id (handle_response self now r).1 = caption_id self)
  ∨ (final_ids (handle_response self now r).2 = [caption_id self]
     ∧ caption_id (handle_response self now r).1 = caption_id self + 1).
Proof.
  unfold handle_response. destruct r as [|result ?]; [by left|].
  destruct (alternatives result) as [|transcript ?]; [by left|].
  destruct (is_final result); [by right | by left].
Qed.




Example two_finals_log :
  (stream_audio (start_streaming init).1 two_finals).2
  = [Emit (Interim "hi");
     Emit (Final 0 "hi there"); Console (FinalLine 0 "hi there");
     Emit (Final 1 "how are you"); Console (FinalLine 1 "how are you");
     Emit (Status "Stopped")].
Proof. reflexivity. Qed.

(** C10.  When the channel raises after the items [before] have been
    handled, nothing that would have followed is handled: the log of
    [stream_audio] is the log so far, the console line of the error, an
    [error] event with the failure description, a status naming the error,
    and last a [Stopped] status; [is_running] is false afterwards, and the
    ledgers and the counter are as the failure found them.  Only
    [start_streaming] sets [is_running] again, starting a fresh session. *)
Theorem stream_failure_stops (self self1 : app) (before after : list channel_item)
  (log1 : list effect) (e : string) :
  stream_loop self before = (self1, log1, Exhausted) →
  stream_audio self (before ++ Failure e :: after)
  = (clear_running self1,
     log1 ++ [Console (StreamingError e); Emit (Error e); Emit (Status ("Error: " ++ e));
              Emit (Status "Stopped")])
  ∧ is_running (stream_audio self (before ++ Failure e :: after)).1 = false
  ∧ start_streaming (stream_audio self (before ++ Failure e :: after)).1
    = ({| is_running := true; audio_buffer := []; transcript_buffer := []; caption_id := 0 |},
       [Emit (Status "Listening...")]).
Proof.
  intros Hbefore.
  assert (stream_loop self (before ++ Failure e :: after) = (self1, log1, Raised e)) as Hloop.
  { revert self log1 Hbefore. induction before as [|item rest IH]; intros self log1 Hbefore.
    - by injection Hbefore as -> <-.
    - cbn [Datatypes.app stream_loop] in *. destruct item as [content|now r| |e'].
      + by apply IH.
      + destruct (is_running self); cbn [negb] in *; [|done].
        destruct (handle_response self now r) as [self' log'].
        destruct (stream_loop self' rest) as [[self2 log2] how] eqn:Hrest.
        injection Hbefore as -> <- ->. by rewrite (IH self' log2 Hrest).
      + by apply IH.
      + done. }
  unfold stream_audio. rewrite Hloop. cbn [on_exception fst].
  split; [done|]. split; reflexivity.
Qed.

Lemma stream_failure_stops_witness :
  stream_loop (start_streaming init).1 (firstn 3 two_finals)
  = ((stream_loop (start_streaming init).1 (firstn 3 two_finals)).1.1,
     [Emit (Interim "hi"); Emit (Final 0 "hi there"); Console (FinalLine 0 "hi there")],
     Exhausted)
  ∧ (stream_audio (start_streaming init).1
       (firstn 3 two_finals ++ Failure "Deadline Exceeded" :: skipn 3 two_finals)).2
    = [Emit (Interim "hi"); Emit (Final 0 "hi there"); Console (FinalLine 0 "hi there");
       Console (StreamingError "Deadline Exceeded"); Emit (Error "Deadline Exceeded");
       Emit (Status "Error: Deadline Exceeded"); Emit (Status "Stopped")]
  ∧ is_running (stream_audio (start_streaming init).1
       (firstn 3 two_finals ++ Failure "Deadline Exceeded" :: skipn 3 two_finals)).1 = false.
Proof.
  split; [reflexivity|].
  destruct (stream_failure_stops (start_streaming init).1
              (stream_loop (start_streaming init).1 (firstn 3 two_finals)).1.1
              (firstn 3 two_finals) (skipn 3 two_finals)
              [Emit (Interim "hi"); Emit (Final 0 "hi there"); Console (FinalLine 0 "hi there")]
              "Deadline Exceeded") as (H1 & H2 & _); [reflexivity|].
  split; [by rewrite H1 | exact H2].
Defined.

End StreamFacts.

(** ** Facts about the two tasks together *)

Module SessionFacts.
Import Str Sink App Stream Reconciler Session Props Scenarios ReconcilerFacts StreamFacts.










End SessionFacts.

(** ** More about the gain stage *)

Module GainFacts.
Import Audio Props AudioFacts.

Lemma unpack_length audio_data samples :
  unpack audio_data = Some samples → length audio_data = (2 * length samples)%nat.
Proof.
  revert samples. induction audio_data as [audio_data IH] using (induction_ltof1 _ length).
  destruct audio_data as [|lo [|hi rest]]; cbn [unpack]; intros samples H.
  - by injection H as <-.
  - done.
  - destruct (unpack rest) as [tail|] eqn:Hrest; [|done]. injection H as <-.
    assert (length rest = (2 * length tail)%nat) as Hlen
      by (apply IH; [unfold ltof; cbn; lia | done]).
    cbn [length]. lia.
Qed.

Lemma unpack_even audio_data :
  is_Some (unpack audio_data) ↔ Nat.even (length audio_data) = true.
Proof.
  induction audio_data as [audio_data IH] using (induction_ltof1 _ length).
  destruct audio_data as [|lo [|hi rest]]; cbn [unpack length Nat.even].
  - split; [done | by eexists].
  - split; [by intros [? ?] | done].
  - rewrite <- (IH rest) by (unfold ltof; cbn; lia).
    destruct (unpack rest) as [tail|]; cbn.
    + split; intros _; eexists; reflexivity.
    + reflexivity.
Qed.

Lemma pack16_length n b : pack16 n = Some b → length b = 2%nat.
Proof.
  unfold pack16. destruct (_ && _); [|done].
  destruct (Byte.of_N (Z.to_N ((n mod 65536) mod 256))) as [lo|]; cbn; [|done].
  destruct (Byte.of_N (Z.to_N ((n mod 65536) / 256))) as [hi|]; cbn; [|done].
  by intros [= <-].
Qed.

Lemma pack_length samples out :
  pack samples = Some out → length out = (2 * length samples)%nat.
Proof.
  revert out. induction samples as [|n rest IH]; intros out; cbn [pack].
  - by intros [= <-].
  - destruct (pack16 n) as [b|] eqn:Hb; cbn; [|done].
    destruct (pack rest) as [bs|]; cbn; [|done]. intros [= <-].
    rewrite length_app, (pack16_length _ _ Hb), (IH bs eq_refl). cbn [length]. lia.
Qed.

Lemma amplify_samples_length samples gain amplified :
  amplify_samples samples gain = Some amplified → length amplified = length samples.
Proof. intros H%amplify_samples_spec. symmetry. by eapply Forall2_length. Qed.

(** X1.  Amplification keeps the length of the buffer: one output sample,
    two bytes, per input sample. *)
Theorem amplify_audio_keeps_length (audio_data out : list byte) (gain : number) :
  amplify_audio audio_data gain = Some out → length out = length audio_data.
Proof.
  unfold amplify_audio. intros H.
  destruct (unpack audio_data) as [samples|] eqn:Hu; [|done]. cbn in H.
  destruct (amplify_samples samples gain) as [amplified|] eqn:Ha; [|done]. cbn in H.
  rewrite (pack_length _ _ H), (amplify_samples_length _ _ _ Ha).
  symmetry. by apply unpack_length.
Qed.

Lemma amplify_audio_keeps_length_witness :
  amplify_audio [x01; x80; xff; x7f; x10; x00] (PyFloat 2.5%float)
  = Some [x00; x80; xff; x7f; x28; x00]
  ∧ length [x00; x80; xff; x7f; x28; x00] = length [x01; x80; xff; x7f; x10; x00].
Proof.
  split; [reflexivity|].
  apply (amplify_audio_keeps_length _ _ (PyFloat 2.5%float)). reflexivity.
Defined.

(** Packing what two bytes unpack to gives the two bytes back. *)
Lemma unpack16_pack16 lo hi : pack16 (unpack16 lo hi) = Some [lo; hi].
Proof.
  assert (Byte.to_N lo ≤ 255)%N as Hlo by apply Byte.to_N_bounded.
  assert (Byte.to_N hi ≤ 255)%N as Hhi by apply Byte.to_N_bounded.
  unfold pack16, unpack16.
  set (u := Z.of_N (Byte.to_N lo) + 256 * Z.of_N (Byte.to_N hi)).
  assert (0 ≤ u < 65536) as Hu by (unfold u; lia).
  assert ((if u <? 32768 then u else u - 65536) mod 65536 = u) as Hmod.
  { destruct (Z.ltb_spec u 32768).
    - apply Z.mod_small. lia.
    - symmetry. apply (Z.mod_unique _ 65536 (-1)); lia. }
  replace ((-32768 <=? (if u <? 32768 then u else u - 65536))
           && ((if u <? 32768 then u else u - 65536) <=? 32767)) with true.
  2:{ symmetry. apply andb_true_iff. destruct (Z.ltb_spec u 32768);
      split; apply Z.leb_le; lia. }
  rewrite Hmod.
  assert (u mod 256 = Z.of_N (Byte.to_N lo)) as ->.
  { symmetry. apply (Z.mod_unique _ 256 (Z.of_N (Byte.to_N hi))); unfold u; lia. }
  assert (u / 256 = Z.of_N (Byte.to_N hi)) as ->.
  { symmetry. apply (Z.div_unique _ 256 _ (Z.of_N (Byte.to_N lo))); unfold u; lia. }
  by rewrite !N2Z.id, !Byte.of_to_N.
Qed.

Lemma unpack_pack audio_data samples :
  unpack audio_data = Some samples → pack samples = Some audio_data.
Proof.
  revert samples. induction audio_data as [audio_data IH] using (induction_ltof1 _ length).
  destruct audio_data as [|lo [|hi rest]]; cbn [unpack]; intros samples H.
  - by injection H as <-.
  - done.
  - destruct (unpack rest) as [tail|] eqn:Hrest; [|done]. injection H as <-.
    cbn [pack]. rewrite unpack16_pack16. cbn.
    rewrite (IH rest); [done | unfold ltof; cbn; lia | done].
Qed.

Lemma clip_id n : int16 n → clip n = n.
Proof. unfold int16, clip. lia. Qed.

Lemma amplify_samples_int samples g :
  amplify_samples samples (PyInt g) = Some ((λ sample, clip (sample * g)) <$> samples).
Proof. induction samples as [|s rest IH]; cbn; [done|]. by rewrite IH. Qed.

(** X2.  Unpacking and packing are inverse on well-formed buffers, and a
    gain of 1 returns the buffer as it came. *)
Theorem unit_gain_is_identity (audio_data : list byte) (samples : list Z) :
  unpack audio_data = Some samples →
  pack samples = Some audio_data
  ∧ amplify_audio audio_data (PyInt 1) = Some audio_data.
Proof.
  intros Hu. pose proof (unpack_pack _ _ Hu) as Hp. split; [done|].
  unfold amplify_audio. rewrite Hu. cbn. rewrite amplify_samples_int. cbn.
  replace ((λ sample, clip (sample * 1)) <$> samples) with samples; [done|].
  pose proof (unpack_int16 _ _ Hu) as Hrange. clear Hu Hp.
  induction Hrange as [|s rest Hs _ IH]; cbn; [done|].
  by rewrite <- IH, Z.mul_1_r, clip_id.
Qed.

Lemma unit_gain_is_identity_witness :
  unpack [x01; x80; xff; x7f; x10; x00] = Some [-32767; 32767; 16]
  ∧ pack [-32767; 32767; 16] = Some [x01; x80; xff; x7f; x10; x00]
  ∧ amplify_audio [x01; x80; xff; x7f; x10; x00] (PyInt 1)
    = Some [x01; x80; xff; x7f; x10; x00].
Proof.
  split; [reflexivity|].
  apply (unit_gain_is_identity [x01; x80; xff; x7f; x10; x00] [-32767; 32767; 16]).
  reflexivity.
Defined.

(** X3.  A buffer of odd length makes [amplify_audio] raise whatever the
    gain, and with an integer gain a buffer of even length never does: the
    empty buffer gives the empty buffer. *)
Theorem odd_length_raises (audio_data : list byte) :
  (Nat.even (length audio_data) = false → ∀ gain, amplify_audio audio_data gain = None)
  ∧ (Nat.even (length audio_data) = true →
       ∀ g, is_Some (amplify_audio audio_data (PyInt g)))
  ∧ (∀ gain, amplify_audio [] gain = Some []).
Proof.
  split; [|split; [|done]].
  - intros Hodd gain. unfold amplify_audio.
    destruct (unpack audio_data) as [samples|] eqn:Hu; [|done].
    assert (is_Some (unpack audio_data)) as He by (by eexists).
    apply unpack_even in He. congruence.
  - intros Heven g. apply unpack_even in Heven as [samples Hu].
    unfold amplify_audio. rewrite Hu. cbn. rewrite amplify_samples_int. cbn.
    destruct (pack_unpack ((λ sample, clip (sample * g)) <$> samples)) as (out & -> & _);
      [|done].
    apply Forall_fmap, Forall_forall. intros s _. apply clip_int16.
Qed.

(** Clipping first loses nothing when the second gain is not negative. *)
Lemma clip_clip_mul v g : 0 ≤ g → clip (clip v * g) = clip (v * g).
Proof.
  intros Hg. destruct (decide (g = 0)) as [->|Hpos]; [by rewrite !Z.mul_0_r|].
  destruct (Z.lt_trichotomy v (-32768)) as [Hlow|[->|Hmid]].
  - assert (clip v = -32768) as -> by (unfold clip; lia).
    assert (v * g ≤ -32768) by nia. assert (-32768 * g ≤ -32768) by nia.
    unfold clip. lia.
  - done.
  - destruct (Z.le_gt_cases v 32767) as [Hin|Hhigh].
    + by rewrite (clip_id v) by (unfold int16; lia).
    + assert (clip v = 32767) as -> by (unfold clip; lia).
      assert (32767 ≤ v * g) by nia. assert (32767 ≤ 32767 * g) by nia.
      unfold clip. lia.
Qed.

(** X4.  Amplifying twice with integer gains, the second one not negative,
    is amplifying once with their product: clipping in between changes
    nothing. *)
Theorem gains_compose (audio_data mid : list byte) (g1 g2 : Z) :
  0 ≤ g2 →
  amplify_audio audio_data (PyInt g1) = Some mid →
  amplify_audio mid (PyInt g2) = amplify_audio audio_data (PyInt (g1 * g2)).
Proof.
  intros Hg2. unfold amplify_audio.
  destruct (unpack audio_data) as [samples|] eqn:Hu; [|done]. cbn.
  rewrite !amplify_samples_int. cbn. intros Hmid.
  destruct (pack_unpack ((λ sample, clip (sample * g1)) <$> samples)) as (out & Hp & Hu').
  { apply Forall_fmap, Forall_forall. intros s _. apply clip_int16. }
  assert (out = mid) as -> by congruence.
  rewrite Hu'. cbn. rewrite amplify_samples_int. cbn. f_equal.
  rewrite <- list_fmap_compose. apply list_fmap_ext. intros _ s _. cbn.
  rewrite clip_clip_mul by done. f_equal. lia.
Qed.

Lemma gains_compose_witness :
  0 ≤ 3
  ∧ amplify_audio [x01; x80; xff; x7f; x10; x00] (PyInt 2)
    = Some [x00; x80; xff; x7f; x20; x00]
  ∧ amplify_audio [x00; x80; xff; x7f; x20; x00] (PyInt 3)
    = amplify_audio [x01; x80; xff; x7f; x10; x00] (PyInt (2 * 3)).
Proof.
  split; [lia|]. split; [reflexivity|].
  apply (gains_compose [x01; x80; xff; x7f; x10; x00] [x00; x80; xff; x7f; x20; x00] 2 3);
    [lia | reflexivity].
Defined.

(** With a negative second gain the two differ: 32767 is clipped first and
    then negated to -32767, while the product is clipped to -32768. *)
Example negative_gain_does_not_compose :
  amplify_audio [xff; x7f] (PyInt 2) = Some [xff; x7f]
  ∧ amplify_audio [xff; x7f] (PyInt (-1)) = Some [x01; x80]
  ∧ amplify_audio [xff; x7f] (PyInt (2 * -1)) = Some [x00; x80].
Proof. repeat split; reflexivity. Qed.

(** *** The default gain *)

(** Whether [int(sample * 3.0)] comes out as three times [sample]. *)
Definition triples (sample : Z) : bool :=
  match scale sample (PyFloat GAIN) with
  | Some v => v =? 3 * sample
  | None => false
  end.

(** Checked on each of the 65536 samples. *)
Lemma every_sample_triples : all_from triples (-32768) (Z.to_nat 65536) = true.
Proof. vm_compute. reflexivity. Qed.

Lemma scale_default sample : int16 sample → scale sample (PyFloat GAIN) = Some (3 * sample).
Proof.
  intros [Hlo Hhi].
  assert (triples sample = true) as H.
  { apply (all_from_spec _ _ _ _ every_sample_triples). lia. }
  unfold triples in H. destruct (scale sample (PyFloat GAIN)) as [v|]; [|done].
  apply Z.eqb_eq in H. by subst.
Qed.

(** X5.  With the default gain, the float 3.0, no rounding shows: on every
    well-formed buffer [amplify_audio] returns, and returns what the exact
    integer gain 3 gives, each sample tripled and clipped. *)
Theorem default_gain_triples (audio_data : list byte) (samples : list Z) :
  unpack audio_data = Some samples →
  amplify_audio audio_data (PyFloat GAIN) = amplify_audio audio_data (PyInt 3)
  ∧ ∃ out, amplify_audio audio_data (PyFloat GAIN) = Some out
           ∧ unpack out = Some ((λ sample, clip (3 * sample)) <$> samples).
Proof.
  intros Hu. pose proof (unpack_int16 _ _ Hu) as Hrange.
  assert (amplify_samples samples (PyFloat GAIN)
          = Some ((λ sample, clip (3 * sample)) <$> samples)) as Hfloat.
  { clear Hu. induction Hrange as [|s rest Hs _ IH]; cbn [amplify_samples]; [done|].
    rewrite (scale_default s Hs), IH. done. }
  assert (amplify_samples samples (PyInt 3)
          = Some ((λ sample, clip (3 * sample)) <$> samples)) as Hint.
  { rewrite amplify_samples_int. f_equal. apply list_fmap_ext. intros _ s _. cbn.
    f_equal. lia. }
  unfold amplify_audio. rewrite Hu. cbn [mbind option_bind]. rewrite Hfloat, Hint.
  split; [done|]. cbn [mbind option_bind].
  destruct (pack_unpack ((λ sample, clip (3 * sample)) <$> samples)) as (out & Hp & Hu').
  { apply Forall_fmap, Forall_forall. intros s _. apply clip_int16. }
  exists out. done.
Qed.

Lemma default_gain_triples_witness :
  unpack [x01; x80; xff; x7f; x10; x00] = Some [-32767; 32767; 16]
  ∧ amplify_audio [x01; x80; xff; x7f; x10; x00] (PyFloat GAIN)
    = amplify_audio [x01; x80; xff; x7f; x10; x00] (PyInt 3)
  ∧ ∃ out, amplify_audio [x01; x80; xff; x7f; x10; x00] (PyFloat GAIN) = Some out
           ∧ unpack out = Some ((λ sample, clip (3 * sample)) <$> [-32767; 32767; 16]).
Proof.
  split; [reflexivity|].
  apply (default_gain_triples [x01; x80; xff; x7f; x10; x00] [-32767; 32767; 16]).
  reflexivity.
Defined.

End GainFacts.

(** ** Facts about the microphone queue *)

Module MicrophoneFacts.
Import Audio Microphone.

Lemma drain_some data more :
  forallb (λ item, match item with Some _ => true | None => false end) more = true →
  drain data more = Some (data ++ omap id more).
Proof.
  revert data. induction more as [|[chunk|] rest IH]; intros data H; cbn in *.
  - by rewrite app_nil_r.
  - rewrite IH by done. by rewrite <- app_assoc.
  - done.
Qed.

Lemma drain_sentinel data more :
  forallb (λ item, match item with Some _ => true | None => false end) more = false →
  drain data more = None.
Proof.
  revert data. induction more as [|[chunk|] rest IH]; intros data H; cbn in *; [done| |done].
  by apply IH.
Qed.

Lemma generator_yields t rest :
  yields t = true → generator (t :: rest) = concat (chunks_of t) :: generator rest.
Proof.
  unfold yields, chunks_of. destruct t as [closed [chunk|] more]; cbn.
  - destruct closed; cbn; [done|]. intros H. by rewrite (drain_some [chunk] more H).
  - by rewrite andb_false_r.
Qed.

Lemma generator_returns t rest : yields t = false → generator (t :: rest) = [].
Proof.
  unfold yields. destruct t as [closed [chunk|] more]; cbn; destruct closed; cbn; try done.
  intros H. by rewrite (drain_sentinel [chunk] more H).
Qed.

Lemma concat_concat_fmap {A} (ls : list (list (list A))) :
  concat ((λ l, concat l) <$> ls) = concat (concat ls).
Proof.
  induction ls as [|l rest IH]; cbn; [done|]. by rewrite concat_app, IH.
Qed.

(** X6.  While the stream is open and no sentinel is met, every turn of the
    generator yields one buffer, the chunks it took off the queue joined in
    order; so the yielded buffers, joined, are the queued chunks, joined:
    nothing is lost, repeated or reordered. *)
Theorem generator_coalesces (turns : list turn) :
  forallb yields turns = true →
  generator turns = (λ t, concat (chunks_of t)) <$> turns
  ∧ concat (generator turns) = concat (concat (chunks_of <$> turns)).
Proof.
  intros H.
  assert (generator turns = (λ t, concat (chunks_of t)) <$> turns) as Hgen.
  { induction turns as [|t rest IH]; [done|].
    cbn [forallb] in H. apply andb_true_iff in H as [Ht Hrest].
    rewrite generator_yields by done. cbn. by rewrite IH. }
  split; [done|]. rewrite Hgen, <- concat_concat_fmap. f_equal.
  by rewrite <- list_fmap_compose.
Qed.

Lemma generator_coalesces_witness :
  forallb yields
    [{| closed := false; first := Some [x01; x00]; more := [Some [x02; x00]; Some [x03; x00]] |};
     {| closed := false; first := Some [x04; x00]; more := [] |}] = true
  ∧ generator
      [{| closed := false; first := Some [x01; x00]; more := [Some [x02; x00]; Some [x03; x00]] |};
       {| closed := false; first := Some [x04; x00]; more := [] |}]
    = [[x01; x00; x02; x00; x03; x00]; [x04; x00]].
Proof.
  split; [reflexivity|].
  destruct (generator_coalesces
    [{| closed := false; first := Some [x01; x00]; more := [Some [x02; x00]; Some [x03; x00]] |};
     {| closed := false; first := Some [x04; x00]; more := [] |}]) as [H _]; [reflexivity|].
  exact H.
Defined.

(** X7.  The turn that meets the sentinel, or finds the stream closed, ends
    the generator without a yield: the chunks it had already taken off the
    queue in that turn are dropped, and nothing queued later is yielded. *)
Theorem generator_stops_at_sentinel (before rest : list turn) (t : turn) :
  forallb yields before = true →
  yields t = false →
  generator (before ++ t :: rest) = (λ t, concat (chunks_of t)) <$> before.
Proof.
  intros Hbefore Ht. induction before as [|b before' IH]; cbn [Datatypes.app].
  - by rewrite generator_returns.
  - cbn [forallb] in Hbefore. apply andb_true_iff in Hbefore as [Hb Hrest].
    rewrite generator_yields by done. cbn. by rewrite IH.
Qed.

Lemma generator_stops_at_sentinel_witness :
  forallb yields [{| closed := false; first := Some [x01; x00]; more := [] |}] = true
  ∧ yields {| closed := false; first := Some [x02; x00];
              more := [Some [x03; x00]; None; Some [x04; x00]] |} = false
  ∧ generator
      ([{| closed := false; first := Some [x01; x00]; more := [] |}]
       ++ {| closed := false; first := Some [x02; x00];
             more := [Some [x03; x00]; None; Some [x04; x00]] |}
       :: [{| closed := false; first := Some [x05; x00]; more := [] |}])
    = [[x01; x00]].
Proof.
  split; [reflexivity|]. split; [reflexivity|].
  apply (generator_stops_at_sentinel
           [{| closed := false; first := Some [x01; x00]; more := [] |}]
           [{| closed := false; first := Some [x05; x00]; more := [] |}]
           {| closed := false; first := Some [x02; x00];
              more := [Some [x03; x00]; None; Some [x04; x00]] |});
    reflexivity.
Defined.

End MicrophoneFacts.

(** ** Facts about the session lifecycle and the ledgers *)

Module LedgerFacts.
Import Str Sink App Stream Props Scenarios.

(** The id and text a [final] event carries, and those of a segment. *)
Definition final_of (x : effect) : option (Z * str) :=
  match x with Emit (Final id text) => Some (id, text) | _ => None end.

Definition segment_key (t : segment) : Z * str := (item_id t, item_text t).

(** The chunk an [Audio] item brings. *)
Definition audio_of (item : channel_item) : option (list byte) :=
  match item with Audio content => Some content | _ => None end.

(** X8.  Whatever the state, [stop] followed by [start] gives a running
    session with empty ledgers and the counter at 0; a [start] on a running
    session changes nothing and emits nothing; [stop] keeps the ledgers and
    the counter and reports [Stopped] again when repeated. *)
Theorem restart_resets (self : app) :
  start_streaming (stop_streaming self).1
  = ({| is_running := true; audio_buffer := []; transcript_buffer := []; caption_id := 0 |},
     [Emit (Status "Listening...")])
  ∧ start_streaming (start_streaming self).1 = ((start_streaming self).1, [])
  ∧ stop_streaming (stop_streaming self).1 = stop_streaming self
  ∧ transcript_buffer (stop_streaming self).1 = transcript_buffer self
  ∧ audio_buffer (stop_streaming self).1 = audio_buffer self
  ∧ caption_id (stop_streaming self).1 = caption_id self.
Proof. destruct self as [[] ab tb cid]; repeat split; reflexivity. Qed.

(** The loop over [before ++ more] is the loop over [before], when that
    runs to the end, followed by the loop over [more]. *)
Lemma stream_loop_app self before more self1 log1 :
  stream_loop self before = (self1, log1, Exhausted) →
  stream_loop self (before ++ more)
  = ((stream_loop self1 more).1.1, log1 ++ (stream_loop self1 more).1.2,
     (stream_loop self1 more).2).
Proof.
  revert self log1. induction before as [|item rest IH]; intros self log1 H.
  - injection H as -> <-. cbn. by destruct (stream_loop self1 more) as [[? ?] ?].
  - cbn [Datatypes.app stream_loop] in *. destruct item as [content|now r| |e].
    + by apply IH.
    + destruct (is_running self); cbn [negb] in *; [|done].
      destruct (handle_response self now r) as [self' log'].
      destruct (stream_loop self' rest) as [[self2 log2] how] eqn:Hrest.
      injection H as -> <- ->. rewrite (IH self' log2 Hrest). cbn. by rewrite app_assoc.
    + by apply IH.
    + done.
Qed.

(** What one response does to the ledgers and the counter. *)
Lemma handle_response_grows self now r :
  ∃ segments, transcript_buffer (handle_response self now r).1
              = transcript_buffer self ++ segments
    ∧ segment_key <$> segments = omap final_of (handle_response self now r).2
    ∧ audio_buffer (handle_response self now r).1 = audio_buffer self
    ∧ is_running (handle_response self now r).1 = is_running self
    ∧ caption_id self ≤ caption_id (handle_response self now r).1.
Proof.
  unfold handle_response. destruct r as [|result ?].
  { exists []. rewrite app_nil_r. repeat split; done || lia. }
  destruct (alternatives result) as [|transcript ?].
  { exists []. rewrite app_nil_r. repeat split; done || lia. }
  destruct (is_final result).
  - eexists [_]. cbn. repeat split; done || lia.
  - exists []. rewrite app_nil_r. cbn. repeat split; done || lia.
Qed.

Lemma stream_loop_grows self items :
  ∃ segments k,
    transcript_buffer (stream_loop self items).1.1 = transcript_buffer self ++ segments
    ∧ segment_key <$> segments = omap final_of (stream_loop self items).1.2
    ∧ audio_buffer (stream_loop self items).1.1
      = audio_buffer self ++ take k (omap audio_of items)
    ∧ ((stream_loop self items).2 = Exhausted → k = length (omap audio_of items))
    ∧ caption_id self ≤ caption_id (stream_loop self items).1.1.
Proof.
  revert self. induction items as [|item rest IH]; intros self; cbn [stream_loop].
  { exists [], 0%nat. cbn. rewrite !app_nil_r. repeat split; done || lia. }
  destruct item as [content|now r| |e].
  - destruct (IH (buffer_audio self content)) as (segs & k & Htb & Hkey & Hab & Hk & Hc).
    exists segs, (S k). cbn in *. rewrite Hab, <- app_assoc.
    repeat split; try done. intros H. by rewrite (Hk H).
  - destruct (is_running self); cbn [negb].
    2:{ exists [], 0%nat. cbn. rewrite !app_nil_r. repeat split; done || lia. }
    destruct (handle_response_grows self now r) as (segs1 & Htb1 & Hkey1 & Hab1 & _ & Hc1).
    destruct (handle_response self now r) as [self1 log1]. cbn [fst snd] in *.
    destruct (IH self1) as (segs2 & k & Htb2 & Hkey2 & Hab2 & Hk & Hc2).
    destruct (stream_loop self1 rest) as [[self2 log2] how]. cbn [fst snd] in *.
    exists (segs1 ++ segs2), k. rewrite Htb2, Htb1, Hab2, Hab1, <- app_assoc.
    rewrite fmap_app, omap_app, Hkey1, Hkey2. cbn. repeat split; done || lia.
  - destruct (IH (clear_running self)) as (segs & k & Htb & Hkey & Hab & Hk & Hc).
    exists segs, k. cbn in *. repeat split; done.
  - exists [], 0%nat. cbn. rewrite !app_nil_r. repeat split; done || lia.
Qed.

(** X9.  [stream_audio] only ever appends to the two ledgers: the transcript
    ledger and the audio ledger it leaves start with the ones it found, the
    audio ledger grows by the chunks the request generator took, in the
    order it took them (by all of them when the channel simply runs out),
    and the counter never goes back. *)
Theorem ledgers_append_only (self : app) (items : list channel_item) :
  transcript_buffer self `prefix_of` transcript_buffer (stream_audio self items).1
  ∧ audio_buffer self `prefix_of` audio_buffer (stream_audio self items).1
  ∧ (∃ k, audio_buffer (stream_audio self items).1
          = audio_buffer self ++ take k (omap audio_of items)
          ∧ ((stream_loop self items).2 = Exhausted → k = length (omap audio_of items)))
  ∧ caption_id self ≤ caption_id (stream_audio self items).1.
Proof.
  destruct (stream_loop_grows self items) as (segs & k & Htb & _ & Hab & Hk & Hc).
  unfold stream_audio. destruct (stream_loop self items) as [[self' log] how].
  cbn [fst snd clear_running transcript_buffer audio_buffer caption_id] in *.
  split; [by exists segs|]. split; [by eexists|]. split; [by exists k | done].
Qed.

(** X10.  The [final] events and the transcript ledger tell the same story:
    the segments [stream_audio] appends carry, in order, the ids and texts
    of the [final] events it emits. *)
Theorem finals_mirror_ledger (self : app) (items : list channel_item) :
  segment_key <$> transcript_buffer (stream_audio self items).1
  = (segment_key <$> transcript_buffer self) ++ omap final_of (stream_audio self items).2.
Proof.
  destruct (stream_loop_grows self items) as (segs & k & Htb & Hkey & _).
  unfold stream_audio. destruct (stream_loop self items) as [[self' log] how].
  cbn [fst snd clear_running transcript_buffer] in *.
  rewrite Htb, fmap_app, !omap_app, Hkey.
  replace (omap final_of (on_exception how)) with (@nil (Z * str)) by (by destruct how).
  cbn. by rewrite app_nil_r.
Qed.

(** *** Ids in one run of the streaming loop *)

(** The transcript of a response that the loop handles as a final result:
    its first result has an alternative and is final. *)
Definition final_text (r : Stream.response) : option str :=
  match r with
  | [] => None
  | result :: _ =>
      match alternatives result with
      | [] => None
      | transcript :: _ => if is_final result then Some transcript else None
      end
  end.

(** The responses the loop handles: those the channel yields while
    [is_running] is set, up to the first one that finds it cleared and
    before the channel raises. *)
Fixpoint handled (running : bool) (items : list channel_item) : list Stream.response :=
  match items with
  | [] => []
  | Audio _ :: rest => handled running rest
  | Stop :: rest => handled false rest
  | Failure _ :: _ => []
  | Response _ r :: rest => if running then r :: handled running rest else []
  end.

(** In one run of the loop each final result takes the current counter as
    its id and advances the counter by one: the [final] events carry, in
    order, the transcripts of the final results handled, numbered from the
    counter the loop found. *)
Lemma finals_take_the_counter self items :
  omap final_of (stream_loop self items).1.2
  = zip (consecutive (caption_id self)
           (length (omap final_text (handled (is_running self) items))))
        (omap final_text (handled (is_running self) items))
  ∧ caption_id (stream_loop self items).1.1
    = caption_id self
      + Z.of_nat (length (omap final_text (handled (is_running self) items))).
Proof.
  revert self. induction items as [|item rest IH]; intros self; cbn [stream_loop handled].
  { cbn. split; [done | lia]. }
  destruct item as [content|now r| |e].
  - apply (IH (buffer_audio self content)).
  - destruct (is_running self) eqn:Hrun; cbn [negb]; [|cbn; split; [done | lia]].
    assert ((final_text r = None
             ∧ omap final_of (handle_response self now r).2 = []
             ∧ caption_id (handle_response self now r).1 = caption_id self
             ∧ is_running (handle_response self now r).1 = true)
            ∨ (∃ transcript, final_text r = Some transcript
                 ∧ omap final_of (handle_response self now r).2
                   = [(caption_id self, transcript)]
                 ∧ caption_id (handle_response self now r).1 = caption_id self + 1
                 ∧ is_running (handle_response self now r).1 = true)) as Hone.
    { unfold handle_response, final_text. destruct r as [|result others]; [by left|].
      destruct (alternatives result) as [|transcript alts]; [by left|].
      destruct (is_final result); [right; by exists transcript | by left]. }
    destruct (handle_response self now r) as [self1 log1]. cbn [fst snd] in Hone.
    specialize (IH self1).
    destruct (stream_loop self1 rest) as [[self2 log2] how]. cbn [fst snd] in *.
    rewrite omap_app. cbn [omap list_omap].
    destruct Hone as [(-> & -> & Hid & Hrun1)|(transcript & -> & -> & Hid & Hrun1)];
      rewrite Hrun1, Hid in IH; destruct IH as [IHlog IHid].
    + split; [done|]. by rewrite IHid.
    + cbn [length]. rewrite StreamFacts.consecutive_cons. cbn [zip zip_with Datatypes.app].
      split; [by rewrite IHlog | lia].
  - apply (IH (clear_running self)).
  - cbn. split; [done | lia].
Qed.

(** The two final results of [two_finals] get the ids 0 and 1. *)
Example two_finals_ids :
  omap final_text (handled true two_finals) = [lit "hi there"; lit "how are you"]
  ∧ omap final_of (stream_loop (start_streaming init).1 two_finals).1.2
    = [(0, lit "hi there"); (1, lit "how are you")].
Proof. split; reflexivity. Qed.

Lemma stream_loop_no_error self items e :
  Emit (Error e) ∉ (stream_loop self items).1.2.
Proof.
  revert self. induction items as [|item rest IH]; intros self; cbn [stream_loop].
  { apply not_elem_of_nil. }
  destruct item as [content|now r| |e'];
    [apply IH | | apply IH | apply not_elem_of_nil].
  destruct (is_running self); cbn [negb]; [|apply not_elem_of_nil].
  assert (Emit (Error e) ∉ (handle_response self now r).2) as Hone.
  { unfold handle_response. destruct r as [|result ?]; [apply not_elem_of_nil|].
    destruct (alternatives result); [apply not_elem_of_nil|].
    destruct (is_final result); cbn; intros H; repeat (apply elem_of_cons in H as [H|H]);
      try discriminate; by apply elem_of_nil in H. }
  destruct (handle_response self now r) as [self1 log1]. specialize (IH self1).
  destruct (stream_loop self1 rest) as [[self2 log2] how]. cbn [fst snd] in *.
  by intros [?|?]%elem_of_app.
Qed.

(** X12.  However the streaming loop ends (the channel runs out, the loop
    breaks on a stop, or something raises), [stream_audio] leaves
    [is_running] false and its last effect is the status [Stopped]; and its
    log holds an [error] event exactly when the loop raised, with the
    message of that exception. *)
Theorem stream_audio_always_stops (self : app) (items : list channel_item) :
  is_running (stream_audio self items).1 = false
  ∧ last (stream_audio self items).2 = Some (Emit (Status "Stopped"))
  ∧ ∀ e, Emit (Error e) ∈ (stream_audio self items).2
         ↔ (stream_loop self items).2 = Raised e.
Proof.
  pose proof (stream_loop_no_error self items) as Hnone.
  unfold stream_audio. destruct (stream_loop self items) as [[self' log] how].
  cbn [fst snd] in *. split; [done|]. split.
  - by rewrite app_assoc, last_snoc.
  - intros e. rewrite !elem_of_app. split.
    + intros [H|[H|H]].
      * by destruct (Hnone e).
      * destruct how as [| |e']; cbn in H; try by apply elem_of_nil in H.
        repeat (apply elem_of_cons in H as [H|H]); try discriminate;
          [by injection H as -> | by apply elem_of_nil in H].
      * apply list_elem_of_singleton in H. discriminate.
    + intros ->. right. left. cbn. right. by left.
Qed.

End LedgerFacts.

(** ** More about the reconciler *)

Module AlignmentFacts.
Import Str Sink App Reconciler Props Scenarios StrFacts ReconcilerFacts.

(** *** The processed set *)

(** Equalities of sets of ids, element by element. *)
Ltac by_elements :=
  apply set_eq; intros ?;
  rewrite ?elem_of_union, ?elem_of_list_to_set, ?elem_of_app, ?elem_of_cons,
    ?elem_of_union, ?elem_of_singleton, ?elem_of_nil, ?elem_of_empty;
  tauto.

Lemma keeps_processed (P : gset Z) log :
  speaker_update_ids log = [] → P = P ∪ list_to_set (speaker_update_ids log).
Proof. intros ->. by_elements. Qed.

Lemma scan_marks_announced {U : unicode} word_list items word_idx P :
  (scan word_list items word_idx P).2
  = P ∪ list_to_set (speaker_update_ids (scan word_list items word_idx P).1).
Proof.
  revert word_idx P. induction items as [|item rest IH]; intros word_idx P; cbn [scan].
  { by apply keeps_processed. }
  destruct (decide (item_id item ∈ P)); [apply IH|].
  destruct (match_item word_list word_idx (item_text item)) as [votes idx'].
  destruct (most_common votes) as [speaker|]; [|apply IH].
  specialize (IH idx' ({[item_id item]} ∪ P)).
  destruct (scan word_list rest idx' ({[item_id item]} ∪ P)) as [log P'].
  cbn [fst snd] in *. rewrite speaker_update_ids_announce, IH. by_elements.
Qed.

Lemma tick_marks_announced {U : unicode} P env :
  (tick P env).2 = P ∪ list_to_set (speaker_update_ids (tick P env).1).
Proof.
  unfold tick. destruct (unprocessed (ledger_at_check env) P).
  { by apply keeps_processed. }
  destruct (_ <? _); [by apply keeps_processed|].
  destruct (diarize_cases P (concat (frames env)) (recognize env) (ledger_at_scan env))
    as (log & P' & -> & [[Hnone ->]|(words & r & pre & _ & _ & -> & ->)]); cbn [fst snd].
  - by apply keeps_processed.
  - apply scan_marks_announced.
Qed.

(** X13.  A segment id is in the processed set exactly when the reconciler
    has emitted its [speaker_update]: over any run of ticks the set grows by
    the announced ids and by nothing else, and [run_diarization], which
    starts from the empty set, ends with exactly the announced ids. *)
Theorem processed_exactly_announced {U : unicode} (processed_captions : gset Z) (envs : list tick_env) :
  (ticks processed_captions envs).2
  = processed_captions ∪ list_to_set (speaker_update_ids (ticks processed_captions envs).1)
  ∧ (run_diarization envs).2 = list_to_set (speaker_update_ids (run_diarization envs).1).
Proof.
  assert (∀ P, (ticks P envs).2 = P ∪ list_to_set (speaker_update_ids (ticks P envs).1)) as H.
  { induction envs as [|env rest IH]; intros P; cbn [ticks].
    { by apply keeps_processed. }
    destruct (running env); [|by apply keeps_processed].
    pose proof (tick_marks_announced P env) as H1. destruct (tick P env) as [log1 P1].
    specialize (IH P1). destruct (ticks P1 rest) as [log2 P2]. cbn [fst snd] in *.
    rewrite IH, H1, speaker_update_ids_app. by_elements. }
  split; [apply H|]. unfold run_diarization. specialize (H ∅).
  destruct (ticks ∅ envs) as [log P]. cbn [fst snd] in *. rewrite H.
  change (speaker_update_ids (Console DiarizationStarted :: log)) with (speaker_update_ids log).
  by_elements.
Qed.

(** Of a diarization response only the last result counts, and of that
    result only the first alternative. *)
Lemma only_last_result_counts {U : unicode} (processed_captions : gset Z) (audio_data : list byte)
  (earlier : response) (words : list word_info) (others : list (list word_info))
  (transcript_buffer : list segment) :
  diarize processed_captions audio_data (Returned (earlier ++ [words :: others]))
    transcript_buffer
  = diarize processed_captions audio_data (Returned [[words]]) transcript_buffer.
Proof. unfold diarize. by rewrite last_snoc. Qed.

(** *** The request *)

Lemma scan_makes_no_request {U : unicode} word_list items word_idx P :
  requests (scan word_list items word_idx P).1 = [].
Proof.
  revert word_idx P. induction items as [|item rest IH]; intros word_idx P; cbn [scan]; [done|].
  destruct (decide (item_id item ∈ P)); [apply IH|].
  destruct (match_item word_list word_idx (item_text item)) as [votes idx'].
  destruct (most_common votes) as [speaker|]; [|apply IH].
  specialize (IH idx' ({[item_id item]} ∪ P)).
  destruct (scan word_list rest idx' ({[item_id item]} ∪ P)) as [log P'].
  cbn [fst] in *. unfold requests in *. rewrite filter_app, IH. by rewrite app_nil_r.
Qed.

Lemma requests_cons x log :
  requests (x :: log) = if is_request x then x :: requests log else requests log.
Proof. unfold requests. rewrite filter_cons. by destruct (is_request x). Qed.

Lemma diarize_requests {U : unicode} P audio_data recognize ledger :
  requests (diarize P audio_data recognize ledger).1 = [Recognize audio_data].
Proof.
  unfold diarize. destruct recognize as [r|e]; [|done].
  destruct (last r) as [[|words pre]|]; [done| |done].
  pose proof (scan_makes_no_request (build_word_list words) ledger 0 P) as H.
  destruct (scan (build_word_list words) ledger 0 P) as [log P']. cbn [fst] in *.
  rewrite !requests_cons. cbn [is_request]. by rewrite H.
Qed.

(** X14.  A tick makes at most one diarization request; when it finds an
    unprocessed segment and at least 320000 bytes of audio it makes exactly
    one, whatever the service then answers, and the request carries all the
    audio buffered since the start of the session, joined in order. *)
Theorem one_request_with_all_audio {U : unicode} (processed_captions : gset Z) (env : tick_env) :
  (length (requests (tick processed_captions env).1) ≤ 1)%nat
  ∧ (unprocessed (ledger_at_check env) processed_captions ≠ [] →
     320000 ≤ Z.of_nat (length (concat (frames env))) →
     requests (tick processed_captions env).1 = [Recognize (concat (frames env))]).
Proof.
  unfold tick. change (Audio.RATE * 2 * 10) with 320000.
  destruct (unprocessed (ledger_at_check env) processed_captions) as [|t rest].
  { split; [apply Nat.le_0_l | done]. }
  destruct (Z.ltb_spec (Z.of_nat (length (concat (frames env)))) 320000).
  { split; [apply Nat.le_0_l | lia]. }
  rewrite diarize_requests. split; [apply Nat.le_refl | done].
Qed.

(** *** The palettes *)

(** X15.  Every speaker tag, zero and negative ones included, gets a colour
    and a name from the palettes, both at the same index; tags that differ
    by 5 get the same colour and name, so a sixth speaker looks like the
    first. *)
Theorem palette_repeats (speaker : Z) :
  pick speaker_colors (speaker + 5) = pick speaker_colors speaker
  ∧ pick speaker_names (speaker + 5) = pick speaker_names speaker
  ∧ ∃ i, (i < 5)%nat
         ∧ Z.of_nat i = (speaker - 1) mod 5
         ∧ speaker_colors !! i = Some (pick speaker_colors speaker)
         ∧ speaker_names !! i = Some (pick speaker_names speaker).
Proof.
  unfold pick. cbn [length speaker_colors speaker_names]. change (Z.of_nat 5) with 5.
  replace ((speaker + 5 - 1) mod 5) with ((speaker - 1) mod 5)
    by (replace (speaker + 5 - 1) with (speaker - 1 + 1 * 5) by lia;
        by rewrite Z.mod_add).
  split; [done|]. split; [done|].
  pose proof (Z.mod_pos_bound (speaker - 1) 5 ltac:(lia)) as Hm.
  exists (Z.to_nat ((speaker - 1) mod 5)). split; [lia|]. split; [lia|].
  destruct (Z.to_nat ((speaker - 1) mod 5)) as [|[|[|[|[|n]]]]] eqn:Hn;
    [by split..|lia].
Qed.

(** *** Segments that find no speaker *)

Lemma unmatched_tokens_change_nothing {U : unicode} word_list st tokens :
  Forall (λ token, alnum_only token = []) tokens →
  foldl (match_word word_list) st tokens = st.
Proof.
  intros Hall. revert st. induction Hall as [|token rest Ht _ IH]; intros st; [done|].
  cbn [foldl]. by rewrite match_word_empty.
Qed.

Lemma no_alnum_no_votes {U : unicode} word_list word_idx text :
  Forall (λ iw, List.filter isalnum iw = []) (split (lower text)) →
  match_item word_list word_idx text = ([], word_idx).
Proof.
  intros Hall. unfold match_item. apply unmatched_tokens_change_nothing.
  eapply Forall_impl; [exact Hall|]. intros iw Hiw. by rewrite alnum_only_filter.
Qed.

Lemma empty_window word_idx : window [] word_idx = [].
Proof. unfold window. apply range_nil. cbn. lia. Qed.

Lemma empty_timeline_no_votes {U : unicode} st tokens : foldl (match_word []) st tokens = st.
Proof.
  revert st. induction tokens as [|token rest IH]; intros [votes idx]; [done|].
  cbn [foldl]. replace (match_word [] (votes, idx) token) with (votes, idx); [apply IH|].
  unfold match_word, find_match. rewrite empty_window. by destruct (alnum_only token).
Qed.

Lemma scan_without_votes {U : unicode} word_list items word_idx P :
  (∀ item idx, item ∈ items → (match_item word_list idx (item_text item)).1 = []) →
  scan word_list items word_idx P = ([], P).
Proof.
  revert word_idx. induction items as [|item rest IH]; intros word_idx Hall; [done|].
  cbn [scan]. assert (∀ idx, scan word_list rest idx P = ([], P)) as Hrest.
  { intros idx. apply IH. intros item' idx' Hin. apply Hall. by right. }
  destruct (decide (item_id item ∈ P)); [apply Hrest|].
  specialize (Hall item word_idx ltac:(by left)).
  destruct (match_item word_list word_idx (item_text item)) as [votes idx']. cbn in Hall.
  subst votes. cbn. apply Hrest.
Qed.

(** X16.  A scan resolves nothing, and marks nothing processed, when the
    diarization response holds no word, and also when in no segment of the
    ledger a word of the lowercased text has an alphanumeric character;
    such segments stay unprocessed after every tick, whatever the service
    answers. *)
Theorem unmatched_segments_stay_unprocessed {U : unicode} :
  (∀ (items : list segment) (word_idx : Z) (processed_captions : gset Z),
     scan [] items word_idx processed_captions = ([], processed_captions))
  ∧ (∀ (word_list : list (str * Z)) (items : list segment) (word_idx : Z)
       (processed_captions : gset Z),
       Forall (λ item, Forall (λ iw, List.filter isalnum iw = [])
                              (split (lower (item_text item)))) items →
       scan word_list items word_idx processed_captions = ([], processed_captions))
  ∧ (∀ (processed_captions : gset Z) (env : tick_env),
       Forall (λ item, Forall (λ iw, List.filter isalnum iw = [])
                              (split (lower (item_text item)))) (ledger_at_scan env) →
       speaker_update_ids (tick processed_captions env).1 = []
       ∧ (tick processed_captions env).2 = processed_captions).
Proof.
  assert (∀ (word_list : list (str * Z)) items word_idx (P : gset Z),
            Forall (λ item, Forall (λ iw, List.filter isalnum iw = [])
                                   (split (lower (item_text item)))) items →
            scan word_list items word_idx P = ([], P)) as Hscan.
  { intros word_list items word_idx P Hall. apply scan_without_votes.
    intros item idx Hin. rewrite no_alnum_no_votes; [done|].
    by apply (proj1 (Forall_forall _ _) Hall). }
  split; [|split; [exact Hscan|]].
  - intros items word_idx P. apply scan_without_votes. intros item idx _.
    unfold match_item. by rewrite empty_timeline_no_votes.
  - intros P env Hall. unfold tick.
    destruct (unprocessed (ledger_at_check env) P); [done|].
    destruct (_ <? _); [done|].
    destruct (diarize_cases P (concat (frames env)) (recognize env) (ledger_at_scan env))
      as (log & P' & -> & [[Hnone ->]|(words & r & pre & _ & _ & -> & ->)]); cbn [fst snd].
    + unfold speaker_update_ids in *. cbn. by rewrite Hnone.
    + by rewrite Hscan.
Qed.

(** A segment of dots and dashes is never resolved. *)
Example punctuation_stays_unprocessed :
  Forall (λ iw, List.filter isalnum iw = []) (split (lower (lit "... -- !")))
  ∧ match_item timeline 0 (lit "... -- !") = ([], 0).
Proof. split; [by repeat constructor | reflexivity]. Qed.

(** *** The cursor and the window *)




(** *** The tally *)






End AlignmentFacts.

(** ** Facts about the credentials set-up *)

Module CredentialsFacts.
Import Credentials.

Lemma truthy_spec v : truthy v = true ↔ ∃ s, v = Some s ∧ s ≠ EmptyString.
Proof.
  destruct v as [[|c s]|]; cbn.
  - split; [done|]. intros (s & [= <-] & H). done.
  - split; [|done]. intros _. by eexists.
  - split; [done|]. intros (s & ? & _). done.
Qed.

(** X20.  [setup_google_credentials] succeeds exactly when the project id,
    the private key and the client email are all set and not empty: an
    empty variable counts as a missing one.  When it fails it writes no
    file and leaves the environment alone; when it succeeds it points
    [GOOGLE_APPLICATION_CREDENTIALS] at the file, changes no other
    variable, and the file carries the project id and client email as they
    were given. *)
Theorem credentials_need_all_three (env : environ) (temp_name : string) :
  ((setup_google_credentials env temp_name).2 = true
   ↔ (∃ s, env !! "GOOGLE_PROJECT_ID"%string = Some s ∧ s ≠ EmptyString)
     ∧ (∃ s, env !! "GOOGLE_PRIVATE_KEY"%string = Some s ∧ s ≠ EmptyString)
     ∧ (∃ s, env !! "GOOGLE_CLIENT_EMAIL"%string = Some s ∧ s ≠ EmptyString))
  ∧ ((setup_google_credentials env temp_name).2 = false →
     (setup_google_credentials env temp_name).1 = (env, None))
  ∧ ((setup_google_credentials env temp_name).2 = true →
     ∃ creds,
       (setup_google_credentials env temp_name).1
       = (<["GOOGLE_APPLICATION_CREDENTIALS"%string := temp_name]> env, Some creds)
       ∧ env !! "GOOGLE_PROJECT_ID"%string = Some (project_id creds)
       ∧ env !! "GOOGLE_CLIENT_EMAIL"%string = Some (client_email creds)
       ∧ type_ creds = "service_account"%string
       ∧ ∀ name, name ≠ "GOOGLE_APPLICATION_CREDENTIALS"%string →
                 (setup_google_credentials env temp_name).1.1 !! name = env !! name).
Proof.
  unfold setup_google_credentials, getenv.
  pose proof (truthy_spec (env !! "GOOGLE_PROJECT_ID"%string)) as Hp.
  pose proof (truthy_spec (env !! "GOOGLE_PRIVATE_KEY"%string)) as Hk.
  pose proof (truthy_spec (env !! "GOOGLE_CLIENT_EMAIL"%string)) as He.
  destruct (truthy (env !! "GOOGLE_PROJECT_ID"%string)) eqn:Tp; cbn [andb].
  2:{ split; [|split; [done|done]]. split; [done|]. intros (H & _ & _).
      apply Hp in H. done. }
  destruct (truthy (env !! "GOOGLE_PRIVATE_KEY"%string)) eqn:Tk; cbn [andb].
  2:{ split; [|split; [done|done]]. split; [done|]. intros (_ & H & _).
      apply Hk in H. done. }
  destruct (truthy (env !! "GOOGLE_CLIENT_EMAIL"%string)) eqn:Te.
  2:{ split; [|split; [done|done]]. split; [done|]. intros (_ & _ & H).
      apply He in H. done. }
  split; [|split; [done|]].
  - split; [|done]. intros _. split; [by apply Hp|]. split; [by apply Hk | by apply He].
  - intros _. eexists. split; [reflexivity|]. cbn [project_id client_email type_ fst].
    destruct (proj1 Hp eq_refl) as (p & -> & _). destruct (proj1 He eq_refl) as (e & -> & _).
    repeat split; try done. intros name Hname. unfold environ in *.
    by rewrite lookup_insert_ne.
Qed.

(** The first character of the result is the first character of the text,
    or the newline that replaces an escaped one. *)
Lemma replace_head c s :
  ∃ y t, replace_escaped_newlines (String c s) = String y t ∧ (y = c ∨ y = newline).
Proof.
  cbn. destruct s as [|d s']; [by eexists _, _; split; [|left]|].
  destruct (_ && _); eexists _, _; (split; [reflexivity|]); [by right | by left].
Qed.

Lemma has_escaped_newline_cons c y t :
  has_escaped_newline (String c (String y t))
  = (Ascii.eqb c backslash && Ascii.eqb y "n"%char) || has_escaped_newline (String y t).
Proof. reflexivity. Qed.

Lemma replace_cons c d rest :
  replace_escaped_newlines (String c (String d rest))
  = if Ascii.eqb c backslash && Ascii.eqb d "n"%char
    then String newline (replace_escaped_newlines rest)
    else String c (replace_escaped_newlines (String d rest)).
Proof. reflexivity. Qed.

Lemma replace_leaves_none s : has_escaped_newline (replace_escaped_newlines s) = false.
Proof.
  induction s as [s IH] using (induction_ltof1 _ String.length).
  destruct s as [|c [|d rest]]; [done|done|].
  rewrite replace_cons.
  destruct (Ascii.eqb c backslash && Ascii.eqb d "n"%char) eqn:Hmatch.
  - assert (has_escaped_newline (replace_escaped_newlines rest) = false) as Hrest
      by (apply IH; unfold ltof; cbn; lia).
    destruct (replace_escaped_newlines rest) as [|y t]; [done|].
    rewrite has_escaped_newline_cons, Hrest. done.
  - assert (has_escaped_newline (replace_escaped_newlines (String d rest)) = false) as Hrest
      by (apply IH; unfold ltof; cbn; lia).
    destruct (replace_head d rest) as (y & t & Heq & Hy). rewrite Heq in *.
    rewrite has_escaped_newline_cons, Hrest, orb_false_r.
    destruct Hy as [->| ->]; [done|]. by rewrite andb_false_r.
Qed.

Lemma replace_without_escape s :
  has_escaped_newline s = false → replace_escaped_newlines s = s.
Proof.
  induction s as [s IH] using (induction_ltof1 _ String.length).
  destruct s as [|c [|d rest]]; [done|done|].
  rewrite has_escaped_newline_cons. intros [Hmatch Hrest]%orb_false_iff.
  rewrite replace_cons, Hmatch. f_equal.
  apply IH; [unfold ltof; cbn; lia | done].
Qed.

Lemma replace_shortens s :
  (String.length (replace_escaped_newlines s) ≤ String.length s)%nat.
Proof.
  induction s as [s IH] using (induction_ltof1 _ String.length).
  destruct s as [|c [|d rest]]; [done|done|].
  rewrite replace_cons. destruct (_ && _); cbn [String.length].
  - assert (String.length (replace_escaped_newlines rest) ≤ String.length rest)%nat
      by (apply IH; unfold ltof; cbn; lia). lia.
  - assert (String.length (replace_escaped_newlines (String d rest))
            ≤ String.length (String d rest))%nat by (apply IH; unfold ltof; cbn; lia).
    cbn [String.length] in *. lia.
Qed.

(** X21.  In the private key written to the credentials file no backslash
    is followed by the letter n any more: each such pair of the variable
    has become one newline.  A key without such a pair is written as it is,
    and the written key is never longer than the variable. *)
Theorem private_key_newlines (env : environ) (temp_name : string) (creds : service_account)
  (key : string) :
  (setup_google_credentials env temp_name).1.2 = Some creds →
  env !! "GOOGLE_PRIVATE_KEY"%string = Some key →
  private_key creds = replace_escaped_newlines key
  ∧ has_escaped_newline (private_key creds) = false
  ∧ (has_escaped_newline key = false → private_key creds = key)
  ∧ (String.length (private_key creds) ≤ String.length key)%nat.
Proof.
  unfold setup_google_credentials, getenv. intros Hcreds Hkey. rewrite Hkey in Hcreds.
  destruct (_ && _); [|done]. injection Hcreds as <-. cbn.
  split; [done|]. split; [apply replace_leaves_none|].
  split; [apply replace_without_escape | apply replace_shortens].
Qed.

(** A key kept on one line in the environment, as [.env] files do. *)
Definition dotenv : environ :=
  <["GOOGLE_PROJECT_ID"%string := "captions"%string]>
  (<["GOOGLE_PRIVATE_KEY"%string := "-----BEGIN-----\nMIIE\\nab\n-----END-----\n"%string]>
  (<["GOOGLE_CLIENT_EMAIL"%string := "bot@captions.example"%string]> ∅)).

Lemma private_key_newlines_witness :
  (setup_google_credentials dotenv "/tmp/creds.json").1.2
  = Some {| type_ := "service_account"; project_id := "captions";
            private_key :=
              String.append "-----BEGIN-----"
                (String newline (String.append "MIIE\"
                   (String newline (String.append "ab"
                      (String newline (String.append "-----END-----"
                         (String newline EmptyString)))))));
            client_email := "bot@captions.example";
            token_uri := "https://oauth2.googleapis.com/token" |}
  ∧ has_escaped_newline
      (String.append "-----BEGIN-----"
         (String newline (String.append "MIIE\"
            (String newline (String.append "ab"
               (String newline (String.append "-----END-----"
                  (String newline EmptyString)))))))) = false.
Proof.
  split; [vm_compute; reflexivity|].
  destruct (private_key_newlines dotenv "/tmp/creds.json"
    {| type_ := "service_account"; project_id := "captions";
       private_key :=
         String.append "-----BEGIN-----"
           (String newline (String.append "MIIE\"
              (String newline (String.append "ab"
                 (String newline (String.append "-----END-----"
                    (String newline EmptyString)))))));
       client_email := "bot@captions.example";
       token_uri := "https://oauth2.googleapis.com/token" |}
    "-----BEGIN-----\nMIIE\\nab\n-----END-----\n") as (_ & H & _);
    [vm_compute; reflexivity | vm_compute; reflexivity | exact H].
Defined.

End CredentialsFacts.

(** ** Facts about the first caption application *)

Module CaptionFacts.
Import Str Caption.

Lemma rstrip_cons {U : unicode} c rest :
  rstrip (c :: rest)
  = match rstrip rest with
    | [] => if isspace c then [] else [c]
    | kept => c :: kept
    end.
Proof. reflexivity. Qed.

Lemma rstrip_idempotent {U : unicode} s : rstrip (rstrip s) = rstrip s.
Proof.
  induction s as [|c rest IH]; [done|]. rewrite rstrip_cons.
  destruct (rstrip rest) as [|k kept] eqn:Hkept.
  - destruct (isspace c) eqn:Hc; [done|]. rewrite rstrip_cons. cbn. by rewrite Hc.
  - rewrite rstrip_cons, IH. done.
Qed.

Lemma lstrip_head {U : unicode} s :
  lstrip s = [] ∨ ∃ c rest, lstrip s = c :: rest ∧ isspace c = false.
Proof.
  induction s as [|c rest IH]; [by left|]. cbn. destruct (isspace c) eqn:Hc; [done|].
  right. by eexists _, _.
Qed.

Lemma rstrip_keeps_head {U : unicode} c rest :
  isspace c = false → ∃ kept, rstrip (c :: rest) = c :: kept.
Proof.
  intros Hc. rewrite rstrip_cons. destruct (rstrip rest); rewrite ?Hc; by eexists.
Qed.

Lemma strip_is_stripped {U : unicode} s : lstrip (strip s) = strip s ∧ rstrip (strip s) = strip s.
Proof.
  unfold strip. split; [|apply rstrip_idempotent].
  destruct (lstrip_head s) as [->|(c & rest & -> & Hc)]; [done|].
  destruct (rstrip_keeps_head c rest Hc) as [kept ->]. cbn. by rewrite Hc.
Qed.

(** X22.  The correction step never blanks a caption: a recognised phrase
    always queues a text, which is the recognised text itself whenever
    correction is off, the request fails, or the answer is empty or blank;
    otherwise it is the answer without surrounding whitespace, which is not
    empty. *)
Theorem correction_never_blanks {U : unicode} (enhance : bool) (text : str) (r : reply) :
  ∃ queued,
    process_turn enhance (Recognized text r) = Some queued
    ∧ (text ≠ [] → queued ≠ [])
    ∧ (enhance = false → queued = text)
    ∧ (∀ e, r = ApiError e → queued = text)
    ∧ (∀ corrected, r = Answer corrected → strip corrected = [] → queued = text)
    ∧ (∀ corrected, enhance = true → r = Answer corrected →
         strip corrected ≠ [] →
         queued = strip corrected ∧ lstrip queued = queued ∧ rstrip queued = queued).
Proof.
  unfold process_turn. destruct enhance.
  2:{ exists text. repeat split; try done. }
  destruct r as [corrected|e]; cbn [enhance_with_claude].
  - destruct (strip corrected) as [|c kept] eqn:Hstrip.
    + exists text. split; [done|]. split; [done|]. split; [done|]. split; [done|].
      split; [done|]. intros ? _ [= <-] Hne. by rewrite Hstrip in Hne.
    + exists (c :: kept). split; [done|]. split; [done|]. split; [done|].
      split; [done|]. split; [intros ? [= <-]; by rewrite Hstrip|].
      intros ? _ [= <-] _. rewrite <- Hstrip. split; [done|]. apply strip_is_stripped.
  - destruct text as [|c rest]; [exists [] | exists (c :: rest)];
      repeat split; try done.
Qed.

End CaptionFacts.

(** ** Facts about restarted sessions *)

Module ThreadsFacts.
Import Str Sink App Stream Reconciler Threads Scenarios.

(** For one streaming thread, a response followed by the pending emit is
    the body of the loop of [stream_audio]. *)
Lemma receive_deliver {U : unicode} (w : world) (k : nat) (now : float) (r : Stream.response) :
  is_running (shared w) = true →
  shared (take_step (receive w k now r) (Deliver k)) = (handle_response (shared w) now r).1
  ∧ (streams w !! k = Some Receiving →
     out (take_step (receive w k now r) (Deliver k))
     = out w ++ (handle_response (shared w) now r).2).
Proof.
  intros Hrun. unfold receive, handle_response. rewrite Hrun. cbn [negb].
  destruct r as [|result rest].
  { cbn [take_step]. split; [by destruct (streams w !! k) as [[]|]|].
    intros ->. by rewrite app_nil_r. }
  destruct (alternatives result) as [|transcript others].
  { cbn [take_step]. split; [by destruct (streams w !! k) as [[]|]|].
    intros ->. by rewrite app_nil_r. }
  destruct (is_final result).
  - cbn [final_append take_step streams shared out fst snd].
    split.
    + by destruct (<[k:=Emitting (caption_id (shared w)) transcript]> (streams w) !! k) as [[]|].
    + intros Hk. rewrite list_lookup_insert_eq; [done|]. by eapply lookup_lt_Some.
  - cbn [take_step streams shared out fst snd]. split; [by destruct (streams w !! k) as [[]|]|].
    by intros ->.
Qed.

(** *** After a stop *)








(** C1.  The schedule of [restarted_session]: the reconciler of the first
    session is still alive in the second one, with a processed set of its
    own, and the one segment of the second session gets a [speaker_update]
    from each of the two reconcilers. *)
Theorem restart_announces_twice :
  let w := run restarted_session in
  Session.events (out w)
  = [Status "Listening..."; Status "Stopped"; Status "Stopped"; Status "Listening...";
     Final 0 "hello world";
     SpeakerUpdate 0 1 "#3498db" "Speaker 1";
     SpeakerUpdate 0 1 "#3498db" "Speaker 1"]
  ∧ speaker_update_ids (out w) = [0; 0]
  ∧ loop_alive <$> loops w = [true; true]
  ∧ stream_alive <$> streams w = [false; true].
Proof. vm_compute. repeat split; reflexivity. Qed.

(** C3.  The schedule of [crossed_finals]: the streaming thread of the first
    session is still alive in the second one and takes its ids from the
    counter the restart has reset, beside the new thread; the [final]
    events of the second session come out with the ids 1 and 0, in that
    order. *)
Theorem restart_crosses_final_ids :
  let w := run crossed_finals in
  Session.events (out w)
  = [Status "Listening..."; Status "Stopped"; Status "Listening...";
     Final 1 "hello"; Final 0 "hello"]
  ∧ final_ids (out w) = [1; 0]
  ∧ item_id <$> transcript_buffer (shared w) = [0; 1]
  ∧ stream_alive <$> streams w = [true; true].
Proof. vm_compute. repeat split; reflexivity. Qed.

End ThreadsFacts.
